(** * Verification of the project tree and its state machine (mingnote)

    Shallow embedding of [src/src/features/tree/Tree.tsx] ([buildTree],
    selection, create and delete handlers, folder expansion, [TreeList] rows
    and the context menu), of the search panel of
    [src/src/features/search/Search.tsx], of the autosave timers of
    [src/src/features/editor/Editor.tsx] and [CharacterEditor.tsx], and of
    the image path helpers of [CharacterEditor.tsx]. *)

From Stdlib Require Import List String Ascii Bool Arith NArith Lia.
From Stdlib Require Import Sorting.Sorted.
Import ListNotations.
Open Scope string_scope.
Open Scope list_scope.

Module Tree.

(** ** Rows as the tree component holds them *)

Record Folder := mkFolder { f_id : string; f_name : string; f_parentId : option string }.
Record Doc := mkDoc { d_id : string; d_title : string; d_folderId : option string }.
Record Character := mkCharacter { c_id : string; c_name : string; c_folderId : option string }.

(** [type TreeNode = {kind:"folder",...,children} | {kind:"doc",...} | {kind:"character",...}] *)
#[local] Set Warnings "-register-all".
Inductive TreeNode : Type :=
| FolderNode (id name : string) (children : list TreeNode)
| DocNode (id title : string)
| CharNode (id name : string).

Definition ROOT_KEY : string := "__ROOT__".

(** [const keyOf = (id: string | null): string => id ?? ROOT_KEY] *)
Definition keyOf (id : option string) : string :=
  match id with Some s => s | None => ROOT_KEY end.

(** ** Evaluation results of JavaScript code

    [Throw] is an exception raised by the engine (a [TypeError]);
    [OutOfFuel] marks a run that has not finished within the given recursion
    depth: a run that is [OutOfFuel] for every fuel does not terminate. *)
Inductive Res (A : Type) : Type :=
| Ok (a : A)
| Throw (msg : string)
| OutOfFuel.
Arguments Ok {A} a.
Arguments Throw {A} msg.
Arguments OutOfFuel {A}.

Definition bind {A B : Type} (r : Res A) (k : A -> Res B) : Res B :=
  match r with
  | Ok a => k a
  | Throw m => Throw m
  | OutOfFuel => OutOfFuel
  end.

Notation "x <- c ;; k" := (bind c (fun x => k))
  (at level 61, c at next level, right associativity).

(** [xs.map(f)] for an [f] that may throw or recurse: left to right, the
    first failure is the result. *)
Fixpoint mapRes {A B : Type} (f : A -> Res B) (l : list A) : Res (list B) :=
  match l with
  | [] => Ok []
  | x :: r => y <- f x ;; ys <- mapRes f r ;; Ok (y :: ys)
  end.

(** ** Plain objects used as dictionaries ([Record<string, T[]> = {}])

    A lookup [m[k]] finds an own property first and otherwise the property
    inherited from [Object.prototype]; those inherited properties are
    functions (or, for ["__proto__"], [Object.prototype] itself): truthy
    values with neither [push] nor [map]. *)
Definition objectProtoNames : list string :=
  [ "constructor"; "__defineGetter__"; "__defineSetter__"; "hasOwnProperty";
    "__lookupGetter__"; "__lookupSetter__"; "isPrototypeOf";
    "propertyIsEnumerable"; "toString"; "valueOf"; "__proto__";
    "toLocaleString" ].

Definition isProtoName (k : string) : bool :=
  existsb (String.eqb k) objectProtoNames.

(** Own properties of the object, as an association list. *)
Definition JsRecord (A : Type) : Type := list (string * list A).

Fixpoint ownGet {V : Type} (m : list (string * V)) (k : string) : option V :=
  match m with
  | [] => None
  | (k', v) :: r => if String.eqb k k' then Some v else ownGet r k
  end.

Fixpoint ownSet {V : Type} (m : list (string * V)) (k : string) (v : V) : list (string * V) :=
  match m with
  | [] => [(k, v)]
  | (k', v') :: r => if String.eqb k k' then (k, v) :: r else (k', v') :: ownSet r k v
  end.

(** [(m[k] ||= []).push(x)]: an inherited property is truthy, so nothing
    is assigned and [push] is not a function. *)
Definition bucketPush {A : Type} (m : JsRecord A) (k : string) (x : A) : Res (JsRecord A) :=
  if isProtoName k then Throw "TypeError: m[k].push is not a function"
  else match ownGet m k with
       | Some xs => Ok (ownSet m k (xs ++ [x]))
       | None => Ok (ownSet m k [x])
       end.

(** [(m[k] || [])] followed by [.map]: an inherited property has no [map]. *)
Definition lookupOrEmpty {A : Type} (m : JsRecord A) (k : string) : Res (list A) :=
  if isProtoName k then Throw "TypeError: (m[k] || []).map is not a function"
  else match ownGet m k with
       | Some xs => Ok xs
       | None => Ok []
       end.

(** [const m = {}; for (const x of xs) (m[keyOf(ref(x))] ||= []).push(x);] *)
Fixpoint bucketBy {A : Type} (ref : A -> option string) (xs : list A) (m : JsRecord A)
  : Res (JsRecord A) :=
  match xs with
  | [] => Ok m
  | x :: r => m' <- bucketPush m (keyOf (ref x)) x ;; bucketBy ref r m'
  end.

(** ** [buildTree] *)

Definition docNode (d : Doc) : TreeNode := DocNode (d_id d) (d_title d).
Definition charNode (c : Character) : TreeNode := CharNode (c_id c) (c_name c).

Section MakeFolderNode.
Variables (childrenByParent : JsRecord Folder) (docsByFolder : JsRecord Doc)
          (charsByFolder : JsRecord Character).

(** [makeFolderNode]; [fuel] bounds the depth of the recursion, which has
    no cycle guard in the source. *)
Fixpoint makeFolderNode (fuel : nat) (f : Folder) : Res TreeNode :=
  match fuel with
  | O => OutOfFuel
  | S fuel' =>
      kids <- lookupOrEmpty childrenByParent (f_id f) ;;
      sub <- mapRes (makeFolderNode fuel') kids ;;
      ds <- lookupOrEmpty docsByFolder (f_id f) ;;
      cs <- lookupOrEmpty charsByFolder (f_id f) ;;
      Ok (FolderNode (f_id f) (f_name f) (sub ++ map docNode ds ++ map charNode cs))
  end.

End MakeFolderNode.

(** *** Sorting *)

Inductive Kind := KFolder | KDoc | KCharacter.

Definition kind_eqb (a b : Kind) : bool :=
  match a, b with
  | KFolder, KFolder | KDoc, KDoc | KCharacter, KCharacter => true
  | _, _ => false
  end.

Definition kindOf (n : TreeNode) : Kind :=
  match n with
  | FolderNode _ _ _ => KFolder
  | DocNode _ _ => KDoc
  | CharNode _ _ => KCharacter
  end.

(** [a.kind === "folder" ? a.name : a.kind === "doc" ? a.title : a.name] *)
Definition nameOf (n : TreeNode) : string :=
  match n with
  | FolderNode _ name _ => name
  | DocNode _ title => title
  | CharNode _ name => name
  end.

Definition isFolder (n : TreeNode) : bool :=
  match kindOf n with KFolder => true | _ => false end.

(** [Array.prototype.sort] with a comparator: the sign of the comparator's
    result as a [comparison]. The sort is stable (ECMAScript 2019); for a
    consistent comparator its result is the stable sorted permutation, which
    is what this insertion sort computes: an element goes after every
    element already placed that it is not strictly below. *)
Fixpoint insertBy {A : Type} (cmp : A -> A -> comparison) (x : A) (sorted : list A) : list A :=
  match sorted with
  | [] => [x]
  | y :: ys => match cmp x y with
               | Lt => x :: y :: ys
               | _ => y :: insertBy cmp x ys
               end
  end.

Definition sortBy {A : Type} (cmp : A -> A -> comparison) (l : list A) : list A :=
  fold_left (fun acc x => insertBy cmp x acc) l [].

Section Sorting.
(** [String.prototype.localeCompare] of the host's default locale. *)
Variable localeCompare : string -> string -> comparison.

(** The comparator of [sortNodes]. *)
Definition compareNodes (a b : TreeNode) : comparison :=
  if negb (kind_eqb (kindOf a) (kindOf b)) && isFolder a then Lt
  else if negb (kind_eqb (kindOf a) (kindOf b)) && isFolder b then Gt
  else localeCompare (nameOf a) (nameOf b).

(** [nodes.slice().sort(...)]: sorts a fresh copy. *)
Definition sortNodes (nodes : list TreeNode) : list TreeNode :=
  sortBy compareNodes nodes.

(** [sortDeep]; the children are sorted after [sortDeep] has been mapped
    over them, which is the same list as [sortNodes(n.children).map(sortDeep)]
    since [sortDeep] keeps the kind and the name of every node
    (lemma [sortDeep_eq] below). *)
Fixpoint sortDeep (n : TreeNode) : TreeNode :=
  match n with
  | FolderNode id name cs => FolderNode id name (sortNodes (map sortDeep cs))
  | _ => n
  end.

Definition buildTree (fuel : nat) (folders : list Folder) (docs : list Doc)
  (chars : list Character) : Res (list TreeNode) :=
  childrenByParent <- bucketBy f_parentId folders [] ;;
  docsByFolder <- bucketBy d_folderId docs [] ;;
  charsByFolder <- bucketBy c_folderId chars [] ;;
  rf <- lookupOrEmpty childrenByParent ROOT_KEY ;;
  rootFolders <- mapRes (makeFolderNode childrenByParent docsByFolder charsByFolder fuel) rf ;;
  rd <- lookupOrEmpty docsByFolder ROOT_KEY ;;
  rc <- lookupOrEmpty charsByFolder ROOT_KEY ;;
  Ok (map sortDeep (sortNodes (rootFolders ++ map docNode rd ++ map charNode rc))).

End Sorting.

(** A code-unit collation, used to run the definitions on examples. *)
Definition codeUnitCompare : string -> string -> comparison := String.compare.

(** ** Properties stated by the spec *)

(** The laws a collation obeys: [localeCompare] is a total preorder. *)
Record CollationLaws (cmp : string -> string -> comparison) : Prop := {
  coll_antisym : forall a b, cmp b a = CompOpp (cmp a b);
  coll_trans : forall a b c, cmp a b <> Gt -> cmp b c <> Gt -> cmp a c <> Gt
}.

(** Two siblings [a] before [b] are in order: a non-folder is never followed
    by a folder, and nodes of one kind are in ascending order of their
    names. *)
Definition siblingOrder (localeCompare : string -> string -> comparison)
  (a b : TreeNode) : Prop :=
  (isFolder a = false -> isFolder b = false) /\
  (kindOf a = kindOf b -> localeCompare (nameOf a) (nameOf b) <> Gt).

Definition siblingsOrdered (localeCompare : string -> string -> comparison)
  (ns : list TreeNode) : Prop :=
  StronglySorted (siblingOrder localeCompare) ns.

(** Every children list below a node is ordered. *)
Fixpoint childListsOrdered (localeCompare : string -> string -> comparison)
  (n : TreeNode) : Prop :=
  match n with
  | FolderNode _ _ cs =>
      siblingsOrdered localeCompare cs /\
      fold_right (fun c acc => childListsOrdered localeCompare c /\ acc) True cs
  | _ => True
  end.

(** The root list and every children list of the forest are ordered. *)
Definition forestOrdered (localeCompare : string -> string -> comparison)
  (forest : list TreeNode) : Prop :=
  siblingsOrdered localeCompare forest /\ Forall (childListsOrdered localeCompare) forest.

(** ** Which entities a forest shows *)

Definition nodeId (n : TreeNode) : string :=
  match n with
  | FolderNode id _ _ | DocNode id _ | CharNode id _ => id
  end.

(** The (kind, id) of a node and of all nodes below it. *)
Fixpoint nodeEntries (n : TreeNode) : list (Kind * string) :=
  (kindOf n, nodeId n) ::
  match n with
  | FolderNode _ _ cs => flat_map nodeEntries cs
  | _ => []
  end.

Definition forestEntries (forest : list TreeNode) : list (Kind * string) :=
  flat_map nodeEntries forest.

(** A reference that is not null and names no folder of the input. *)
Definition dangling (folders : list Folder) (ref : option string) : Prop :=
  exists p, ref = Some p /\ ~ (exists g, In g folders /\ f_id g = p).

(** The own value at [k], or no rows. *)
Definition getOr {A : Type} (m : JsRecord A) (k : string) : list A :=
  match ownGet m k with Some ys => ys | None => [] end.

(** A run that did not raise. *)
Definition notThrow {A : Type} (r : Res A) : Prop :=
  match r with Throw _ => False | _ => True end.

(** The folders [makeFolderNode] is called on: those of the root bucket and,
    recursively, those in the bucket of a reached folder's id. *)
Inductive Reach (folders : list Folder) : Folder -> Prop :=
| reach_root f :
    In f folders -> keyOf (f_parentId f) = ROOT_KEY -> Reach folders f
| reach_child g f :
    Reach folders g -> In f folders -> keyOf (f_parentId f) = f_id g -> Reach folders f.

(** A reference whose bucket is read: the root bucket or a reached folder's. *)
Definition placedRef (folders : list Folder) (ref : option string) : Prop :=
  keyOf ref = ROOT_KEY \/ exists g, Reach folders g /\ keyOf ref = f_id g.

(** Where an entry of a forest may come from. *)
Definition entryOk (folders : list Folder) (docs : list Doc) (chars : list Character)
  (e : Kind * string) : Prop :=
  match e with
  | (KFolder, i) => exists g, Reach folders g /\ f_id g = i
  | (KDoc, i) => exists d, In d docs /\ d_id d = i /\ placedRef folders (d_folderId d)
  | (KCharacter, i) => exists c, In c chars /\ c_id c = i /\ placedRef folders (c_folderId c)
  end.

(** A reference that is neither the root key nor an [Object.prototype] name. *)
Definition plainRef (ref : option string) : Prop :=
  forall p, ref = Some p -> p <> ROOT_KEY /\ isProtoName p = false.

(** ** The bucketing loop over a heap of arrays

    [buildTree] writes to arrays in one place only: the [push] of its
    bucketing loops. Here that loop runs on an explicit heap: arrays live at
    locations, the loop reads its source array from the heap at every step
    (as [for ... of] does), [m[k] ||= []] allocates a fresh array and [push]
    appends to the array at a location. The other phases of [buildTree] only
    build fresh arrays ([map], spread, [slice]) and sort the fresh slice, so
    they are values in the model. *)
Definition Heap (A : Type) : Type := list (list A).
Definition loc : Type := nat.

Definition readArr {A : Type} (h : Heap A) (l : loc) : list A := nth l h [].

Fixpoint updateAt {A : Type} (h : list A) (l : nat) (f : A -> A) : list A :=
  match h, l with
  | [], _ => []
  | a :: r, O => f a :: r
  | a :: r, S l' => a :: updateAt r l' f
  end.

Definition pushAt {A : Type} (h : Heap A) (l : loc) (x : A) : Heap A :=
  updateAt h l (fun a => a ++ [x]).

(** [(m[k] ||= []).push(x)] where [m] maps keys to array locations. *)
Definition bucketPushH {A : Type} (m : list (string * loc)) (h : Heap A) (k : string) (x : A)
  : Res (list (string * loc) * Heap A) :=
  if isProtoName k then Throw "TypeError: m[k].push is not a function"
  else match ownGet m k with
       | Some l => Ok (m, pushAt h l x)
       | None => Ok (ownSet m k (List.length h), pushAt (h ++ [[]]) (List.length h) x)
       end.

(** [for (const x of src) (m[keyOf(ref(x))] ||= []).push(x)], from index
    [i] of the array at [src]; [fuel] bounds the number of iterations. *)
Fixpoint forOfBucket {A : Type} (ref : A -> option string) (fuel : nat) (src : loc) (i : nat)
  (m : list (string * loc)) (h : Heap A) : Res (list (string * loc) * Heap A) :=
  match fuel with
  | O => OutOfFuel
  | S fuel' =>
      match nth_error (readArr h src) i with
      | None => Ok (m, h)
      | Some x =>
          r <- bucketPushH m h (keyOf (ref x)) x ;;
          forOfBucket ref fuel' src (S i) (fst r) (snd r)
      end
  end.

(** The rows a heap bucket holds. *)
Definition getOrH {A : Type} (m : list (string * loc)) (h : Heap A) (k : string) : list A :=
  match ownGet m k with Some l => readArr h l | None => [] end.

(** Locations below [n0] hold the arrays that existed before the loop; the
    key object maps keys to distinct locations allocated by the loop. *)
Definition HeapInv {A : Type} (n0 : nat) (m : list (string * loc)) (h : Heap A) : Prop :=
  n0 <= List.length h /\
  (forall k l, ownGet m k = Some l -> n0 <= l < List.length h) /\
  (forall k1 k2 l, ownGet m k1 = Some l -> ownGet m k2 = Some l -> k1 = k2).

(** The path of folders [makeFolderNode] has descended through before it
    reaches [f]: no folder twice, all from the input, and every folder on
    it hangs under the root or under an earlier folder of the path. *)
Definition PathInv (folders : list Folder) (P : list Folder) (f : Folder) : Prop :=
  NoDup (P ++ [f]) /\ incl (P ++ [f]) folders /\
  (forall x, In x (P ++ [f]) ->
     keyOf (f_parentId x) = ROOT_KEY \/ exists y, In y P /\ keyOf (f_parentId x) = f_id y).

End Tree.

(** ** The tree component's handlers and the shared store

    [state] (valtio, [src/src/lib/store.ts]) holds the project path, the two
    selection fields and the collections; the component's own React state
    holds the expansion map, the context menu and the confirmation dialog.
    Each handler is a computation in a state and rejection monad: an engine
    call ([src/src/lib/ipc.ts]) is logged in [calls] and answered by the
    engine, [None] standing for a rejected promise. *)
Module TreeUi.

(** A JS string whose characters matter to the code (the answer of
    [window.prompt] and the name made from it), as its UTF-16 code units. *)
Definition jsstr : Type := list N.

(** The code units of an ASCII literal. *)
Definition units (s : string) : jsstr := map N_of_ascii (list_ascii_of_string s).

Record Listing := mkListing {
  l_folders : list Tree.Folder;
  l_docs : list Tree.Doc;
  l_characters : option (list Tree.Character) }.

Inductive Call : Type :=
| NewFolder (path : string) (name : jsstr) (parentId : option string)
| NewDoc (path : string) (title : jsstr) (folderId : option string)
| NewCharacter (path : string) (name : jsstr) (folderId : option string)
| ListTree (path : string)
| DeleteFolderRecursive (path folderId : string)
| DeleteDoc (path docId : string)
| DeleteCharacter (path charId : string).

(** The engine's answers; [None] is a rejection. *)
Record Engine := mkEngine {
  e_newFolder : string -> jsstr -> option string -> option unit;
  e_newDoc : string -> jsstr -> option string -> option string;
  e_newCharacter : string -> jsstr -> option string -> option string;
  e_listTree : string -> option Listing;
  e_deleteFolderRecursive : string -> string -> option unit;
  e_deleteDoc : string -> string -> option unit;
  e_deleteCharacter : string -> string -> option unit }.

Record UiState := mkUi {
  projectPath : string;
  currentDocId : string;
  currentCharId : string;
  folders : list Tree.Folder;
  docs : list Tree.Doc;
  characters : list Tree.Character;
  expanded : list (string * bool);
  menuVisible : bool;
  confirmOpen : bool;
  pendingFolderId : option string;
  calls : list Call;
  alerts : list string }.

Definition setDocId (v : string) (s : UiState) : UiState :=
  mkUi (projectPath s) v (currentCharId s) (folders s) (docs s) (characters s)
       (expanded s) (menuVisible s) (confirmOpen s) (pendingFolderId s) (calls s) (alerts s).
Definition setCharId (v : string) (s : UiState) : UiState :=
  mkUi (projectPath s) (currentDocId s) v (folders s) (docs s) (characters s)
       (expanded s) (menuVisible s) (confirmOpen s) (pendingFolderId s) (calls s) (alerts s).
Definition setCollections (f : list Tree.Folder) (d : list Tree.Doc)
    (c : list Tree.Character) (s : UiState) : UiState :=
  mkUi (projectPath s) (currentDocId s) (currentCharId s) f d c
       (expanded s) (menuVisible s) (confirmOpen s) (pendingFolderId s) (calls s) (alerts s).
Definition setExpanded (e : list (string * bool)) (s : UiState) : UiState :=
  mkUi (projectPath s) (currentDocId s) (currentCharId s) (folders s) (docs s) (characters s)
       e (menuVisible s) (confirmOpen s) (pendingFolderId s) (calls s) (alerts s).
(** [closeContextMenu]: [setContextMenu(cm => cm.visible ? {...cm, visible:false} : cm)] *)
Definition closeContextMenu (s : UiState) : UiState :=
  mkUi (projectPath s) (currentDocId s) (currentCharId s) (folders s) (docs s) (characters s)
       (expanded s) false (confirmOpen s) (pendingFolderId s) (calls s) (alerts s).
Definition setConfirmOpen (b : bool) (s : UiState) : UiState :=
  mkUi (projectPath s) (currentDocId s) (currentCharId s) (folders s) (docs s) (characters s)
       (expanded s) (menuVisible s) b (pendingFolderId s) (calls s) (alerts s).
Definition setPendingFolderId (p : option string) (s : UiState) : UiState :=
  mkUi (projectPath s) (currentDocId s) (currentCharId s) (folders s) (docs s) (characters s)
       (expanded s) (menuVisible s) (confirmOpen s) p (calls s) (alerts s).
Definition logCall (c : Call) (s : UiState) : UiState :=
  mkUi (projectPath s) (currentDocId s) (currentCharId s) (folders s) (docs s) (characters s)
       (expanded s) (menuVisible s) (confirmOpen s) (pendingFolderId s) (calls s ++ [c]) (alerts s).
Definition addAlert (m : string) (s : UiState) : UiState :=
  mkUi (projectPath s) (currentDocId s) (currentCharId s) (folders s) (docs s) (characters s)
       (expanded s) (menuVisible s) (confirmOpen s) (pendingFolderId s) (calls s) (alerts s ++ [m]).

(** *** Selection writes *)

(** [selectDoc] of Tree.tsx *)
Definition selectDoc (id : string) (s : UiState) : UiState := setCharId "" (setDocId id s).
(** [selectChar] of Tree.tsx *)
Definition selectChar (id : string) (s : UiState) : UiState := setDocId "" (setCharId id s).
(** Search.tsx, result link: [onClick={()=> state.currentDocId=r.id}] *)
Definition searchResultClick (id : string) (s : UiState) : UiState := setDocId id s.

(** *** Handlers *)

Inductive Outcome (A : Type) : Type :=
| Done (a : A)
| Rejected.
Arguments Done {A} a.
Arguments Rejected {A}.

Definition M (A : Type) : Type := UiState -> Outcome A * UiState.

Definition ret {A : Type} (a : A) : M A := fun s => (Done a, s).
Definition mbind {A B : Type} (m : M A) (k : A -> M B) : M B :=
  fun s => match m s with
           | (Done a, s') => k a s'
           | (Rejected, s') => (Rejected, s')
           end.
Notation "x <~ m ;; k" := (mbind m (fun x => k))
  (at level 61, m at next level, right associativity).

Definition get : M UiState := fun s => (Done s, s).
Definition modify (f : UiState -> UiState) : M unit := fun s => (Done tt, f s).
(** [try { m } catch { h }] *)
Definition tryCatch (m : M unit) (h : M unit) : M unit :=
  fun s => match m s with
           | (Rejected, s') => h s'
           | r => r
           end.
(** [void p]: the promise is started and its outcome dropped. *)
Definition voidM (m : M unit) : M unit := fun s => (Done tt, snd (m s)).
Definition invoke {A : Type} (c : Call) (r : option A) : M A :=
  fun s => match r with
           | Some a => (Done a, logCall c s)
           | None => (Rejected, logCall c s)
           end.
Definition alert (m : string) : M unit := modify (addAlert m).

(** [!!p] on a [string | null] *)
Definition truthy (p : option string) : bool :=
  match p with Some v => negb (String.eqb v "") | None => false end.

(** The code units [String.prototype.trim] removes: WhiteSpace (TAB, VT,
    FF, ZWNBSP U+FEFF and the space separators of category Zs: U+0020,
    U+00A0, U+1680, U+2000 to U+200A, U+202F, U+205F, U+3000) and
    LineTerminator (LF, CR, U+2028, U+2029). *)
Definition isWs (c : N) : bool :=
  existsb (N.eqb c) [9; 10; 11; 12; 13; 32; 160; 5760; 8232; 8233; 8239; 8287; 12288; 65279]%N
  || (N.leb 8192 c && N.leb c 8202).
Fixpoint dropWs (l : jsstr) : jsstr :=
  match l with
  | [] => []
  | c :: r => if isWs c then dropWs r else l
  end.
(** [raw.trim()]: whitespace removed from both ends. *)
Definition trim (r : jsstr) : jsstr := rev (dropWs (rev (dropWs r))).

(** [promptName]: [raw] is what [window.prompt] returned ([None] for null);
    [if (!trimmed) return null] refuses the empty string. *)
Definition promptName (raw : option jsstr) : option jsstr :=
  match raw with
  | None => None
  | Some r => let trimmed := trim r in
              match trimmed with [] => None | _ :: _ => Some trimmed end
  end.

Definition NO_PROJECT : string := "Open or create a project first.".

Section Handlers.
Variable E : Engine.

Definition refresh : M unit :=
  s <~ get ;;
  if String.eqb (projectPath s) "" then ret tt else
  l <~ invoke (ListTree (projectPath s)) (e_listTree E (projectPath s)) ;;
  _ <~ modify (setCollections (l_folders l) (l_docs l)
                 (match l_characters l with Some c => c | None => [] end)) ;;
  modify closeContextMenu.

(** [setExpanded(e => ({...e, [id]: true}))] when [id] is truthy *)
Definition expandIf (p : option string) : M unit :=
  match p with
  | Some id => if truthy p then modify (fun s => setExpanded (Tree.ownSet (expanded s) id true) s)
               else ret tt
  | None => ret tt
  end.

Definition createFolder (parentId : option string) (raw : option jsstr) : M unit :=
  s <~ get ;;
  if String.eqb (projectPath s) "" then alert NO_PROJECT else
  match promptName raw with
  | None => ret tt
  | Some name =>
      _ <~ invoke (NewFolder (projectPath s) name parentId)
                  (e_newFolder E (projectPath s) name parentId) ;;
      _ <~ refresh ;;
      expandIf parentId
  end.

Definition createDoc (folderId : option string) (raw : option jsstr) : M unit :=
  s <~ get ;;
  if String.eqb (projectPath s) "" then alert NO_PROJECT else
  match promptName raw with
  | None => ret tt
  | Some title =>
      id <~ invoke (NewDoc (projectPath s) title folderId)
                   (e_newDoc E (projectPath s) title folderId) ;;
      _ <~ refresh ;;
      _ <~ modify (selectDoc id) ;;
      expandIf folderId
  end.

Definition createCharacterTab (folderId : option string) (raw : option jsstr) : M unit :=
  s <~ get ;;
  if String.eqb (projectPath s) "" then alert NO_PROJECT else
  match promptName raw with
  | None => ret tt
  | Some name =>
      id <~ invoke (NewCharacter (projectPath s) name folderId)
                   (e_newCharacter E (projectPath s) name folderId) ;;
      _ <~ refresh ;;
      _ <~ modify (selectChar id) ;;
      expandIf folderId
  end.

Definition requestDeleteFolder (folderId : string) : M unit :=
  _ <~ modify (setPendingFolderId (Some folderId)) ;;
  modify (setConfirmOpen true).

Definition actuallyDeleteFolder (folderId : string) : M unit :=
  s <~ get ;;
  if String.eqb (projectPath s) "" then alert NO_PROJECT else
  tryCatch
    (_ <~ invoke (DeleteFolderRecursive (projectPath s) folderId)
                 (e_deleteFolderRecursive E (projectPath s) folderId) ;;
     _ <~ modify (setDocId "") ;;
     _ <~ modify (setCharId "") ;;
     refresh)
    (alert "Failed to delete folder. See console for details.").

(** The [onClose] of the [ConfirmDialog]; its buttons exist only while
    [confirmOpen] is set ([if (!open) return null]). *)
Definition confirmDialogClose (confirmed : bool) : M unit :=
  s <~ get ;;
  if negb (confirmOpen s) then ret tt else
  _ <~ modify (setConfirmOpen false) ;;
  _ <~ (match pendingFolderId s with
        | Some p => if confirmed && truthy (pendingFolderId s)
                    then voidM (actuallyDeleteFolder p) else ret tt
        | None => ret tt
        end) ;;
  modify (setPendingFolderId None).

Definition handleDeleteDoc (docId : string) : M unit :=
  s <~ get ;;
  if String.eqb (projectPath s) "" then alert NO_PROJECT else
  tryCatch
    (_ <~ invoke (DeleteDoc (projectPath s) docId) (e_deleteDoc E (projectPath s) docId) ;;
     _ <~ modify (fun s => if String.eqb (currentDocId s) docId then setDocId "" s else s) ;;
     refresh)
    (alert "Failed to delete document. See console for details.").

Definition handleDeleteCharacter (charId : string) : M unit :=
  s <~ get ;;
  if String.eqb (projectPath s) "" then alert NO_PROJECT else
  tryCatch
    (_ <~ invoke (DeleteCharacter (projectPath s) charId)
                 (e_deleteCharacter E (projectPath s) charId) ;;
     _ <~ modify (fun s => if String.eqb (currentCharId s) charId then setCharId "" s else s) ;;
     refresh)
    (alert "Failed to delete character. See console for details.").

End Handlers.

(** At most one selection field is non-empty. *)
Definition selectionExclusive (s : UiState) : Prop :=
  currentDocId s = "" \/ currentCharId s = "".

(** No engine call, and collections, selection and expansion as before. *)
Definition sameModel (s s' : UiState) : Prop :=
  calls s' = calls s /\ folders s' = folders s /\ docs s' = docs s /\
  characters s' = characters s /\ currentDocId s' = currentDocId s /\
  currentCharId s' = currentCharId s /\ expanded s' = expanded s.

End TreeUi.

(** ** Autosave timers (Editor.tsx, CharacterEditor.tsx)

    One millisecond per [tick]. The [useEffect] whose dependencies are the
    active id and the buffer clears the interval and starts a new one
    whenever one of them changes; [sinceArm] counts the milliseconds since
    that restart, and the interval fires each time it reaches
    [AUTOSAVE_MS]. A fire saves the buffer of the render that started the
    interval, which is the current one since any change restarts it. In
    Editor.tsx the id is [currentDocId] and the buffer [editor.md]; in
    CharacterEditor.tsx they are [currentCharId] and the six [charEditor]
    fields.

    The save is awaited: [lastSaved = Date.now()] runs only when the engine
    call resolves, at the time it resolves, and not at all when it rejects
    (CharacterEditor.tsx catches and ignores the rejection, Editor.tsx
    leaves it unhandled). The engine is the parameter [latency]: the save
    issued as the [k]-th one (counting from 0) resolves [d] ms after it was
    issued when [latency k = Some d], and rejects when [latency k = None].
    [pending] holds the resolution times of the issued saves that will
    resolve and have not yet done so. *)
Module Autosave.

Definition AUTOSAVE_MS : nat := 5000.

Record Saver (B : Type) := mkSaver {
  activeId : string;
  buffer : B;
  lastSaved : nat;
  clock : nat;
  sinceArm : nat;
  saves : list (string * B);
  pending : list nat }.
Arguments mkSaver {B}.
Arguments activeId {B}.
Arguments buffer {B}.
Arguments lastSaved {B}.
Arguments clock {B}.
Arguments sinceArm {B}.
Arguments saves {B}.
Arguments pending {B}.

Section Timer.
Context {B : Type} (beqB : B -> B -> bool) (latency : nat -> option nat).

(** The continuations after [await save...]: every save that has resolved
    by now runs [lastSaved = Date.now()], which stamps the current time. *)
Definition settle (s : Saver B) : Saver B :=
  if existsb (fun t => Nat.leb t (clock s)) (pending s)
  then mkSaver (activeId s) (buffer s) (clock s) (clock s) (sinceArm s) (saves s)
               (filter (fun t => Nat.ltb (clock s) t) (pending s))
  else s.

(** [await saveDoc(projectPath, id, md)]: the call is issued now; its
    continuation waits for it to resolve. *)
Definition flush (s : Saver B) : Saver B :=
  let issued := saves s ++ [(activeId s, buffer s)] in
  match latency (List.length (saves s)) with
  | Some d =>
      settle (mkSaver (activeId s) (buffer s) (lastSaved s) (clock s) (sinceArm s) issued
                      (pending s ++ [clock s + d]))
  | None =>
      mkSaver (activeId s) (buffer s) (lastSaved s) (clock s) (sinceArm s) issued (pending s)
  end.

(** The interval's callback: [if (!id) return; ...flush]. *)
Definition fire (s : Saver B) : Saver B :=
  if String.eqb (activeId s) "" then s else flush s.

Definition tick (s : Saver B) : Saver B :=
  let s1 := settle (mkSaver (activeId s) (buffer s) (lastSaved s) (S (clock s)) (S (sinceArm s))
                            (saves s) (pending s)) in
  if Nat.eqb (sinceArm s1) AUTOSAVE_MS
  then fire (mkSaver (activeId s1) (buffer s1) (lastSaved s1) (clock s1) 0 (saves s1) (pending s1))
  else s1.

Fixpoint wait (n : nat) (s : Saver B) : Saver B :=
  match n with 0 => s | S n' => wait n' (tick s) end.

(** [onChange]: the buffer is written; the effect runs again only if the
    value changed. *)
Definition edit (v : B) (s : Saver B) : Saver B :=
  if beqB v (buffer s) then s
  else mkSaver (activeId s) v (lastSaved s) (clock s) 0 (saves s) (pending s).

(** A selection write to the active id. *)
Definition select (id : string) (s : Saver B) : Saver B :=
  if String.eqb id (activeId s) then s
  else mkSaver id (buffer s) (lastSaved s) (clock s) 0 (saves s) (pending s).

(** [onBlur]: the same save, at once, whatever the timer's phase. *)
Definition blur (s : Saver B) : Saver B := fire s.

Inductive Event : Type :=
| Wait (ms : nat)
| Edit (v : B)
| Blur
| Select (id : string).

Definition step (e : Event) (s : Saver B) : Saver B :=
  match e with
  | Wait n => wait n s
  | Edit v => edit v s
  | Blur => blur s
  | Select id => select id s
  end.

Fixpoint run (es : list Event) (s : Saver B) : Saver B :=
  match es with [] => s | e :: r => run r (step e s) end.

End Timer.

(** Someone typing a character every four seconds. *)
Fixpoint typingEvery4s (k : nat) : list (Event (B := string)) :=
  match k with
  | 0 => []
  | S k' => typingEvery4s k' ++ [Wait 4000; Edit (if Nat.even k then "ab" else "a")]
  end.

End Autosave.

(** ** Folder expansion, rows and context menu (Tree.tsx, [TreeList]) *)
Module TreeView.
Import Tree TreeUi.

(** [!!expanded[id]] on [Record<string, boolean>]: an own entry first, then
    the (truthy) property inherited from [Object.prototype]. *)
Definition isOpen (e : list (string * bool)) (id : string) : bool :=
  match ownGet e id with Some b => b | None => isProtoName id end.




(** A rendered [<li>] of [TreeList]: its depth, kind, id, label and
    whether it is drawn highlighted ([isActive]). *)
Record Row := mkRow { r_depth : nat; r_kind : Kind; r_id : string; r_label : string;
                      r_active : bool }.

(** [TreeList] on one node: a folder row, then its children one level
    deeper when [isOpen]; a doc or character row is active when its id is
    the current one. *)
Fixpoint rowsOf (e : list (string * bool)) (curDoc curChar : string) (depth : nat)
    (n : TreeNode) : list Row :=
  match n with
  | FolderNode id name cs =>
      mkRow depth KFolder id name false ::
      (if isOpen e id then flat_map (rowsOf e curDoc curChar (S depth)) cs else [])
  | DocNode id title => [mkRow depth KDoc id title (String.eqb curDoc id)]
  | CharNode id name => [mkRow depth KCharacter id name (String.eqb curChar id)]
  end.

(** [<TreeList nodes={rootNodes} ... />] with [depth = 0] *)
Definition treeRows (e : list (string * bool)) (curDoc curChar : string)
    (nodes : list TreeNode) : list Row :=
  flat_map (rowsOf e curDoc curChar 0) nodes.

Definition rowEntry (r : Row) : Kind * string := (r_kind r, r_id r).

(** [ContextTarget] *)
Inductive Target : Type :=
| TRoot
| TFolder (id : string)
| TDoc (id : string)
| TCharacter (id : string).

(** The [MenuItem]s of the context menu. *)
Inductive MenuEntry : Type :=
| NewDocumentItem
| NewFolderItem
| NewCharacterItem
| DeleteFolderItem
| DeleteDocumentItem
| DeleteCharacterItem.

(** [const folderId = isFolderTarget ? cmTarget.id : null], and the same
    for [docId] and [charId]. *)
Definition targetFolderId (t : Target) : option string :=
  match t with TFolder id => Some id | _ => None end.
Definition targetDocId (t : Target) : option string :=
  match t with TDoc id => Some id | _ => None end.
Definition targetCharId (t : Target) : option string :=
  match t with TCharacter id => Some id | _ => None end.

(** The items rendered for a target. *)
Definition menuItems (t : Target) : list MenuEntry :=
  match t with
  | TRoot => [NewDocumentItem; NewFolderItem; NewCharacterItem]
  | TFolder _ => [NewDocumentItem; NewFolderItem; NewCharacterItem; DeleteFolderItem]
  | TDoc _ => [DeleteDocumentItem]
  | TCharacter _ => [DeleteCharacterItem]
  end.

Section Menu.
Variable E : Engine.

(** The first statement of an item's [onClick]; on the root menu the
    create handlers get [null], which is [targetFolderId TRoot]. *)
Definition itemAction (t : Target) (i : MenuEntry) (raw : option jsstr) : M unit :=
  match i with
  | NewDocumentItem => createDoc E (targetFolderId t) raw
  | NewFolderItem => createFolder E (targetFolderId t) raw
  | NewCharacterItem => createCharacterTab E (targetFolderId t) raw
  | DeleteFolderItem =>
      match targetFolderId t with
      | Some id => if truthy (Some id) then requestDeleteFolder id else ret tt
      | None => ret tt
      end
  | DeleteDocumentItem =>
      match targetDocId t with
      | Some id => if truthy (Some id) then handleDeleteDoc E id else ret tt
      | None => ret tt
      end
  | DeleteCharacterItem =>
      match targetCharId t with
      | Some id => if truthy (Some id) then handleDeleteCharacter E id else ret tt
      | None => ret tt
      end
  end.

(** [onClick={() => { handler(...); closeContextMenu(); }}]: the handler's
    promise is not awaited and its rejection is not handled. The handler
    writes the menu's visibility only through [closeContextMenu] (in
    [refresh]), so closing the menu after the handler has settled gives the
    same state as closing it when the handler first suspends. *)
Definition clickItem (t : Target) (i : MenuEntry) (raw : option jsstr) : M unit :=
  _ <~ voidM (itemAction t i raw) ;;
  modify closeContextMenu.

End Menu.

(** Engine calls other than the recursive folder delete. *)
Definition notFolderDelete (c : Call) : bool :=
  match c with DeleteFolderRecursive _ _ => false | _ => true end.

(** A computation that only appends calls, none of them a recursive folder
    delete. *)
Definition sparesFolders {A : Type} (m : M A) : Prop :=
  forall s, exists new, calls (snd (m s)) = calls s ++ new /\ forallb notFolderDelete new = true.

End TreeView.

(** ** Full-text search panel (Search.tsx) *)
Module SearchPanel.

(** [{id, snippet}] *)
Record Hit := mkHit { hit_id : string; snippet : string }.

(** [state.search] and the [doSearch] calls made. *)
Record SearchState := mkSearch {
  q : string;
  results : list Hit;
  searchCalls : list (string * string) }.

(** [onSearch] up to its [await]: [state.search.q = q]; an empty query
    clears the results; otherwise [doSearch(s.projectPath, q)] is called. *)
Definition searchBegin (path q' : string) (s : SearchState) : SearchState :=
  if String.eqb q' "" then mkSearch q' [] (searchCalls s)
  else mkSearch q' (results s) (searchCalls s ++ [(path, q')]).

(** [onSearch] after its [await]: the rows of the request, or [None] when
    it rejected (nothing is written). *)
Definition searchEnd (rows : option (list (string * string))) (s : SearchState) : SearchState :=
  match rows with
  | Some r => mkSearch (q s) (map (fun '(id, sn) => mkHit id sn) r) (searchCalls s)
  | None => s
  end.

End SearchPanel.

(** ** Image paths of the character editor (CharacterEditor.tsx) *)
Module ImagePath.

Definition BSLASH : ascii := "092"%char.
Definition SLASH : ascii := "/"%char.

Definition ascii_eqb (a b : ascii) : bool := Ascii.eqb a b.

(** ASCII case folding, as the [i] flag compares letters. *)
Definition lowerA (c : ascii) : ascii :=
  let n := nat_of_ascii c in
  if (65 <=? n)%nat && (n <=? 90)%nat then ascii_of_nat (n + 32)%nat else c.

(** [[a-zA-Z]] *)
Definition isLetter (c : ascii) : bool :=
  let n := nat_of_ascii c in ((65 <=? n)%nat && (n <=? 90)%nat) || ((97 <=? n)%nat && (n <=? 122)%nat).

Fixpoint prefixCI (pre l : list ascii) : bool :=
  match pre, l with
  | [], _ => true
  | p :: pr, c :: r => Ascii.eqb (lowerA c) p && prefixCI pr r
  | _ :: _, [] => false
  end.

(** [isHttpUrl], CharacterEditor.tsx lines 15-17: [/^https?:\/\//i.test(raw)] *)
Definition isHttpUrl (raw : string) : bool :=
  let l := list_ascii_of_string raw in
  prefixCI (list_ascii_of_string "http://") l || prefixCI (list_ascii_of_string "https://") l.

(** [looksAbsolutePath], CharacterEditor.tsx lines 21-24, called by
    [buildDisplayUrl] at line 44:
    [function looksAbsolutePath(p: string): boolean {
       // Windows "C:\", UNC "\\server\share", or POSIX "/"
       return /^[a-zA-Z]:[\\\/]/.test(p) || /^\\\\/.test(p) || p.startsWith("/"); }]
    The three tests in order. Paths are taken as their UTF-8 bytes: the
    patterns only match ASCII characters, which are single bytes, and a
    non-ASCII character matches none of them in either reading. *)
Definition looksAbsolutePath (p : string) : bool :=
  let l := list_ascii_of_string p in
  match l with
  | d :: c :: sl :: _ =>
      isLetter d && Ascii.eqb c ":"%char && (Ascii.eqb sl BSLASH || Ascii.eqb sl SLASH)
  | _ => false
  end ||
  match l with
  | a :: b :: _ => Ascii.eqb a BSLASH && Ascii.eqb b BSLASH
  | _ => false
  end ||
  match l with
  | a :: _ => Ascii.eqb a SLASH
  | [] => false
  end.

(** [normSlashes], CharacterEditor.tsx lines 25-27: [p.replace(/\\/g, "/")] *)
Definition normSlashesL (l : list ascii) : list ascii :=
  map (fun c => if Ascii.eqb c BSLASH then SLASH else c) l.
Definition normSlashes (p : string) : string :=
  string_of_list_ascii (normSlashesL (list_ascii_of_string p)).

(** [buildDisplayUrl] with the platform functions it uses: [join] of
    [@tauri-apps/api/path] ([None]: rejected), [convertFileSrc], and the
    decimal text of [Date.now()]. The second component lists the [join]
    calls made. *)
Section Display.
Variables (join : string -> string -> option string) (convertFileSrc : string -> string)
          (nowText : string).

Definition buildDisplayUrl (projectPath raw : string) : string * list (string * string) :=
  if String.eqb raw "" then ("", []) else
  if isHttpUrl raw then (raw, []) else
  let pathOnDisk := normSlashes raw in
  if looksAbsolutePath pathOnDisk
  then ((convertFileSrc pathOnDisk ++ "?v=" ++ nowText)%string, [])
  else match join projectPath pathOnDisk with
       | Some p => ((convertFileSrc p ++ "?v=" ++ nowText)%string, [(projectPath, pathOnDisk)])
       | None => ("", [(projectPath, pathOnDisk)])
       end.

End Display.

End ImagePath.

Module TreeFacts.
Import Tree.

Example scenario_act_one :
  buildTree codeUnitCompare 3 [mkFolder "f1" "Act I" None]
    [mkDoc "d1" "Scene 1" (Some "f1"); mkDoc "d2" "Notes" None] []
  = Ok [FolderNode "f1" "Act I" [DocNode "d1" "Scene 1"]; DocNode "d2" "Notes"].
Proof. reflexivity. Qed.

(** Induction on trees, with a hypothesis for every child. *)
Definition TreeNode_rect' (P : TreeNode -> Prop)
  (HF : forall id name cs, Forall P cs -> P (FolderNode id name cs))
  (HD : forall id t, P (DocNode id t))
  (HC : forall id n, P (CharNode id n)) : forall n, P n :=
  fix go (n : TreeNode) : P n :=
    match n with
    | FolderNode id name cs =>
        HF id name cs ((fix goL (l : list TreeNode) : Forall P l :=
                          match l with
                          | [] => Forall_nil P
                          | c :: r => Forall_cons c (go c) (goL r)
                          end) cs)
    | DocNode id t => HD id t
    | CharNode id nm => HC id nm
    end.

(** *** Insertion sort *)
Section SortFacts.
Context {A : Type} (cmp : A -> A -> comparison).

Lemma In_insertBy x ys z : In z (insertBy cmp x ys) <-> z = x \/ In z ys.
Proof.
  induction ys as [|y ys IH]; simpl.
  - split; intros [H|[]]; left; congruence.
  - destruct (cmp x y); simpl; rewrite ?IH; intuition congruence.
Qed.

Lemma In_sortBy_acc l acc z :
  In z (fold_left (fun acc x => insertBy cmp x acc) l acc) <-> In z l \/ In z acc.
Proof.
  revert acc; induction l as [|x l IH]; intros acc; simpl.
  - tauto.
  - rewrite IH, In_insertBy. intuition congruence.
Qed.

Lemma In_sortBy l z : In z (sortBy cmp l) <-> In z l.
Proof. unfold sortBy. rewrite In_sortBy_acc. simpl. tauto. Qed.

Lemma sortBy_map {B : Type} (cmpB : B -> B -> comparison) (f : A -> B) l :
  (forall a b, cmpB (f a) (f b) = cmp a b) ->
  sortBy cmpB (map f l) = map f (sortBy cmp l).
Proof.
  intros Hf. unfold sortBy.
  assert (Hins : forall x ys, insertBy cmpB (f x) (map f ys) = map f (insertBy cmp x ys)).
  { intros x ys; induction ys as [|y ys IH]; simpl; [reflexivity|].
    rewrite Hf. destruct (cmp x y); simpl; rewrite ?IH; reflexivity. }
  change (@nil B) with (map f (@nil A)).
  generalize (@nil A) as acc.
  induction l as [|x l IH]; intros acc; simpl; [reflexivity|].
  rewrite Hins. apply IH.
Qed.

Section Laws.
Hypothesis cmp_antisym : forall a b, cmp b a = CompOpp (cmp a b).
Hypothesis cmp_trans : forall a b c, cmp a b <> Gt -> cmp b c <> Gt -> cmp a c <> Gt.

Definition leq (a b : A) : Prop := cmp a b <> Gt.

Lemma insertBy_sorted x ys :
  StronglySorted leq ys -> StronglySorted leq (insertBy cmp x ys).
Proof.
  induction ys as [|y ys IH]; intros Hs; simpl.
  - repeat constructor.
  - apply StronglySorted_inv in Hs as [Hys Hy].
    destruct (cmp x y) eqn:Hxy.
    2:{ constructor; [constructor; assumption|].
        constructor; [unfold leq; congruence|].
        eapply Forall_impl; [|exact Hy]. intros z Hz.
        apply (cmp_trans x y z); [unfold leq; congruence|exact Hz]. }
    all: constructor; [apply IH; exact Hys|].
    all: apply Forall_forall; intros z Hz; apply In_insertBy in Hz as [->|Hz];
      [unfold leq; rewrite cmp_antisym, Hxy; discriminate
      |rewrite Forall_forall in Hy; apply Hy, Hz].
Qed.

Lemma sortBy_sorted l : StronglySorted leq (sortBy cmp l).
Proof.
  unfold sortBy.
  assert (H0 : StronglySorted leq (@nil A)) by constructor.
  revert H0. generalize (@nil A) as acc.
  induction l as [|x l IH]; intros acc Hacc; simpl; [exact Hacc|].
  apply IH, insertBy_sorted, Hacc.
Qed.

End Laws.
End SortFacts.

(** *** The code-unit collation is a total preorder *)

Lemma ascii_compare_le_trans a b c :
  Ascii.compare a b <> Gt -> Ascii.compare b c <> Gt -> Ascii.compare a c <> Gt.
Proof.
  unfold Ascii.compare. intros H1 H2. apply N.compare_le_iff.
  rewrite N.compare_le_iff in H1, H2. lia.
Qed.

Lemma codeUnitCompare_trans s1 s2 s3 :
  codeUnitCompare s1 s2 <> Gt -> codeUnitCompare s2 s3 <> Gt -> codeUnitCompare s1 s3 <> Gt.
Proof.
  unfold codeUnitCompare. revert s2 s3.
  induction s1 as [|a s1 IH]; intros [|b s2] [|c s3]; simpl; try congruence.
  unfold Ascii.compare.
  destruct (N.compare_spec (N_of_ascii a) (N_of_ascii b));
  destruct (N.compare_spec (N_of_ascii b) (N_of_ascii c));
  destruct (N.compare_spec (N_of_ascii a) (N_of_ascii c));
  intros Hs1 Hs2; try congruence; try lia.
  exact (IH s2 s3 Hs1 Hs2).
Qed.

Lemma codeUnitCompare_laws : CollationLaws codeUnitCompare.
Proof.
  split.
  - intros a b. unfold codeUnitCompare. apply String.compare_antisym.
  - apply codeUnitCompare_trans.
Qed.

(** *** Sorted forests *)

Lemma StronglySorted_map_impl {A B : Type} (R : A -> A -> Prop) (R' : B -> B -> Prop)
  (f : A -> B) l :
  (forall a b, R a b -> R' (f a) (f b)) ->
  StronglySorted R l -> StronglySorted R' (map f l).
Proof.
  intros Hf Hs; induction Hs as [|a l Hs IH Ha]; simpl; constructor; [exact IH|].
  apply Forall_map. eapply Forall_impl; [|exact Ha]. intros b; apply Hf.
Qed.

Lemma fold_right_and_Forall {A : Type} (P : A -> Prop) l :
  fold_right (fun c acc => P c /\ acc) True l <-> Forall P l.
Proof.
  induction l as [|a l IH]; simpl.
  - split; constructor.
  - rewrite IH. split; [intros [H1 H2]; constructor; assumption|].
    intros H; inversion H; split; assumption.
Qed.

Lemma sortDeep_kindOf lc n : kindOf (sortDeep lc n) = kindOf n.
Proof. destruct n; reflexivity. Qed.

Lemma sortDeep_nameOf lc n : nameOf (sortDeep lc n) = nameOf n.
Proof. destruct n; reflexivity. Qed.

Lemma compareNodes_sortDeep lc a b :
  compareNodes lc (sortDeep lc a) (sortDeep lc b) = compareNodes lc a b.
Proof.
  unfold compareNodes, isFolder. rewrite !sortDeep_kindOf, !sortDeep_nameOf. reflexivity.
Qed.

(** [sortDeep] in the order of the source:
    [{ ...n, children: sortNodes(n.children).map(sortDeep) }]. *)
Lemma sortDeep_eq lc id name cs :
  sortDeep lc (FolderNode id name cs)
  = FolderNode id name (map (sortDeep lc) (sortNodes lc cs)).
Proof.
  simpl. unfold sortNodes. f_equal.
  apply sortBy_map. apply compareNodes_sortDeep.
Qed.

Section Ordered.
Variable lc : string -> string -> comparison.
Hypothesis laws : CollationLaws lc.

Lemma compareNodes_antisym a b : compareNodes lc b a = CompOpp (compareNodes lc a b).
Proof.
  destruct a, b; unfold compareNodes; simpl; try reflexivity; apply (coll_antisym _ laws).
Qed.

Lemma compareNodes_trans a b c :
  compareNodes lc a b <> Gt -> compareNodes lc b c <> Gt -> compareNodes lc a c <> Gt.
Proof.
  pose proof (coll_trans _ laws) as T.
  destruct a, b, c; unfold compareNodes; simpl; try congruence; apply T.
Qed.

Lemma leq_siblingOrder a b : compareNodes lc a b <> Gt -> siblingOrder lc a b.
Proof.
  destruct a, b; unfold compareNodes, siblingOrder, isFolder in *; simpl in *; intros H;
    split; intros; try congruence.
Qed.

Lemma sortNodes_ordered L : StronglySorted (leq (compareNodes lc)) (sortNodes lc L).
Proof.
  apply sortBy_sorted; [apply compareNodes_antisym | apply compareNodes_trans].
Qed.

Lemma sortDeep_ordered n : childListsOrdered lc (sortDeep lc n).
Proof.
  induction n as [id name cs IH| |] using TreeNode_rect'; simpl; [|exact I|exact I].
  split.
  - unfold siblingsOrdered. rewrite <- (map_id (sortNodes lc _)).
    eapply StronglySorted_map_impl; [|apply sortNodes_ordered].
    intros a b; apply leq_siblingOrder.
  - apply fold_right_and_Forall, Forall_forall. intros c Hc.
    unfold sortNodes in Hc. apply In_sortBy, in_map_iff in Hc as [c' [<- Hc']].
    rewrite Forall_forall in IH. apply IH, Hc'.
Qed.

Lemma sorted_forest_ordered L : forestOrdered lc (map (sortDeep lc) (sortNodes lc L)).
Proof.
  split.
  - eapply StronglySorted_map_impl; [|apply sortNodes_ordered].
    intros a b Hab. apply leq_siblingOrder.
    rewrite compareNodes_sortDeep. exact Hab.
  - apply Forall_map, Forall_forall. intros n _. apply sortDeep_ordered.
Qed.

End Ordered.

(** Inverting a run of the [Res] monad. *)
Ltac inv_bind H :=
  repeat match type of H with
  | bind ?r _ = _ =>
      let E := fresh "E" in
      destruct r eqn:E; simpl in H; try discriminate H
  end.

Lemma buildTree_Ok_shape lc fuel folders docs chars forest :
  buildTree lc fuel folders docs chars = Ok forest ->
  exists L, forest = map (sortDeep lc) (sortNodes lc L).
Proof.
  unfold buildTree. intros H. inv_bind H. injection H as <-. eexists; reflexivity.
Qed.

(** ** C1 *)

(** C1: in every forest returned by [buildTree] (for any total-preorder
    [localeCompare]), the root list and every children list put folders
    before documents and characters and nodes of one kind in ascending
    order of name/title; two root folders "B" (f1) and "A" (f2) come out
    as f2 then f1. *)
Theorem buildTree_siblings_ordered (localeCompare : string -> string -> comparison)
  (Hlaws : CollationLaws localeCompare) :
  (forall fuel folders docs chars forest,
      buildTree localeCompare fuel folders docs chars = Ok forest ->
      forestOrdered localeCompare forest) /\
  (localeCompare "A" "B" = Lt ->
   forall fuel, 1 <= fuel ->
   buildTree localeCompare fuel [mkFolder "f1" "B" None; mkFolder "f2" "A" None] [] []
   = Ok [FolderNode "f2" "A" []; FolderNode "f1" "B" []]).
Proof.
  split.
  - intros fuel folders docs chars forest H.
    apply buildTree_Ok_shape in H as [L ->]. apply sorted_forest_ordered, Hlaws.
  - intros HAB [|fuel] Hfuel; [lia|].
    cbv. rewrite HAB. reflexivity.
Qed.

Lemma buildTree_siblings_ordered_witness :
  CollationLaws codeUnitCompare /\
  forestOrdered codeUnitCompare
    [FolderNode "f1" "Act I" [DocNode "d1" "Scene 1"]; DocNode "d2" "Notes"].
Proof.
  split; [exact codeUnitCompare_laws|].
  apply (proj1 (buildTree_siblings_ordered codeUnitCompare codeUnitCompare_laws) 3
           [mkFolder "f1" "Act I" None]
           [mkDoc "d1" "Scene 1" (Some "f1"); mkDoc "d2" "Notes" None] []).
  reflexivity.
Defined.

End TreeFacts.

Module BucketFacts.
Import Tree.

Lemma ownGet_ownSet {V : Type} (m : list (string * V)) k k' v :
  ownGet (ownSet m k v) k' = if String.eqb k' k then Some v else ownGet m k'.
Proof.
  induction m as [|[k0 v0] m IH]; simpl.
  - reflexivity.
  - destruct (String.eqb_spec k k0) as [->|Hne]; simpl.
    + destruct (String.eqb_spec k' k0); reflexivity.
    + rewrite IH. destruct (String.eqb_spec k' k) as [->|]; [|reflexivity].
      destruct (String.eqb_spec k k0); [contradiction|reflexivity].
Qed.

(** A bucket holds, in input order, the rows whose key is [k]. *)
Lemma bucketBy_getOr {A : Type} (ref : A -> option string) xs m m' :
  bucketBy ref xs m = Ok m' ->
  forall k, getOr m' k = getOr m k ++ filter (fun x => String.eqb (keyOf (ref x)) k) xs.
Proof.
  revert m; induction xs as [|x xs IH]; intros m H k; simpl in H.
  - injection H as <-. rewrite app_nil_r. reflexivity.
  - unfold bucketPush in H. destruct (isProtoName (keyOf (ref x))); [discriminate|].
    simpl.
    assert (Hm : forall m1, bucketBy ref xs m1 = Ok m' ->
               getOr m1 k = getOr m k ++ (if String.eqb (keyOf (ref x)) k then [x] else []) ->
               getOr m' k = getOr m k ++
                 (if String.eqb (keyOf (ref x)) k then x :: filter (fun x => String.eqb (keyOf (ref x)) k) xs
                  else filter (fun x => String.eqb (keyOf (ref x)) k) xs)).
    { intros m1 H1 E. rewrite (IH m1 H1 k), E.
      destruct (String.eqb (keyOf (ref x)) k); rewrite <- app_assoc; reflexivity. }
    destruct (ownGet m (keyOf (ref x))) as [ys|] eqn:Eg; simpl in H; apply (Hm _ H);
      clear Hm IH H; unfold getOr; rewrite ownGet_ownSet, String.eqb_sym;
      destruct (String.eqb_spec (keyOf (ref x)) k) as [Hk|Hk];
      try (subst k; rewrite Eg); rewrite ?app_nil_r; reflexivity.
Qed.

Lemma bucketBy_Ok {A : Type} (ref : A -> option string) xs m :
  (forall x, In x xs -> isProtoName (keyOf (ref x)) = false) ->
  exists m', bucketBy ref xs m = Ok m'.
Proof.
  revert m; induction xs as [|x xs IH]; intros m Hp; simpl; [eauto|].
  unfold bucketPush. rewrite (Hp x (or_introl eq_refl)).
  destruct (ownGet m (keyOf (ref x))); simpl; apply IH; intros y Hy; apply Hp; right; exact Hy.
Qed.

Lemma lookupOrEmpty_bucket {A : Type} (ref : A -> option string) xs m k :
  bucketBy ref xs [] = Ok m -> isProtoName k = false ->
  lookupOrEmpty m k = Ok (filter (fun x => String.eqb (keyOf (ref x)) k) xs).
Proof.
  intros H Hk. unfold lookupOrEmpty. rewrite Hk.
  pose proof (bucketBy_getOr ref xs [] m H k) as E. unfold getOr in E at 1. simpl in E.
  destruct (ownGet m k); rewrite E; reflexivity.
Qed.

Lemma mapRes_Ok {A B : Type} (h : A -> Res B) l l' :
  mapRes h l = Ok l' -> forall y, In y l' -> exists x, In x l /\ h x = Ok y.
Proof.
  revert l'; induction l as [|x l IH]; intros l' H y Hy; simpl in H.
  - injection H as <-. destruct Hy.
  - destruct (h x) eqn:Ex; simpl in H; try discriminate.
    destruct (mapRes h l) eqn:Er; simpl in H; try discriminate.
    injection H as <-. destruct Hy as [<-|Hy].
    + exists x; split; [left|]; auto.
    + destruct (IH _ eq_refl y Hy) as [x' [Hx' E']]. exists x'; split; [right|]; auto.
Qed.

Lemma mapRes_notThrow {A B : Type} (h : A -> Res B) l :
  (forall x, In x l -> notThrow (h x)) -> notThrow (mapRes h l).
Proof.
  induction l as [|x l IH]; intros Hl; simpl; [exact I|].
  specialize (Hl x (or_introl eq_refl)) as Hx.
  destruct (h x); simpl in *; try exact I; [|contradiction].
  assert (Hr : notThrow (mapRes h l)) by (apply IH; intros; apply Hl; right; assumption).
  destruct (mapRes h l); simpl in *; auto.
Qed.

End BucketFacts.

Module ReachFacts.
Import Tree TreeFacts BucketFacts.

Lemma Reach_In F f : Reach F f -> In f F.
Proof. intros H; destruct H; assumption. Qed.

Lemma NoDup_map_inj {A B : Type} (key : A -> B) l a b :
  NoDup (map key l) -> In a l -> In b l -> key a = key b -> a = b.
Proof.
  induction l as [|x l IH]; simpl; intros Hn Ha Hb E; [contradiction|].
  inversion Hn as [|y ys Hx Hn' Hy]; subst.
  destruct Ha as [<-|Ha], Hb as [<-|Hb]; auto.
  - exfalso; apply Hx. rewrite E. apply in_map, Hb.
  - exfalso; apply Hx. rewrite <- E. apply in_map, Ha.
Qed.

Lemma sortDeep_entries lc n e :
  In e (nodeEntries (sortDeep lc n)) <-> In e (nodeEntries n).
Proof.
  revert e.
  induction n as [id name cs IH| |] using TreeFacts.TreeNode_rect'; intros e; [|reflexivity|reflexivity].
  simpl. apply or_iff_compat_l. rewrite !in_flat_map. split.
  - intros [c [Hc He]]. unfold sortNodes in Hc.
    apply TreeFacts.In_sortBy, in_map_iff in Hc as [c' [<- Hc']].
    rewrite Forall_forall in IH. exists c'. split; [exact Hc'|]. apply IH; assumption.
  - intros [c [Hc He]]. exists (sortDeep lc c). split.
    + unfold sortNodes. apply TreeFacts.In_sortBy, in_map, Hc.
    + rewrite Forall_forall in IH. apply IH; assumption.
Qed.

Lemma sorted_forest_entries lc L e :
  In e (forestEntries (map (sortDeep lc) (sortNodes lc L))) <-> In e (forestEntries L).
Proof.
  unfold forestEntries. rewrite !in_flat_map. split.
  - intros [n [Hn He]]. apply in_map_iff in Hn as [n' [<- Hn']].
    unfold sortNodes in Hn'. apply TreeFacts.In_sortBy in Hn'.
    exists n'. split; [exact Hn'|]. apply sortDeep_entries in He. exact He.
  - intros [n [Hn He]]. exists (sortDeep lc n). split.
    + apply in_map. unfold sortNodes. apply TreeFacts.In_sortBy, Hn.
    + apply sortDeep_entries, He.
Qed.

Lemma lookupOrEmpty_Ok_proto {A : Type} (m : JsRecord A) k ys :
  lookupOrEmpty m k = Ok ys -> isProtoName k = false.
Proof. unfold lookupOrEmpty. destruct (isProtoName k); [discriminate|reflexivity]. Qed.

Lemma bind_notThrow {A B : Type} (r : Res A) (k : A -> Res B) :
  notThrow r -> (forall a, r = Ok a -> notThrow (k a)) -> notThrow (bind r k).
Proof. destruct r; simpl; auto. Qed.

Section Buckets.
Variables (F : list Folder) (D : list Doc) (C : list Character).
Variables (cbp : JsRecord Folder) (dbf : JsRecord Doc) (cbf : JsRecord Character).
Hypothesis Hcbp : bucketBy f_parentId F [] = Ok cbp.
Hypothesis Hdbf : bucketBy d_folderId D [] = Ok dbf.
Hypothesis Hcbf : bucketBy c_folderId C [] = Ok cbf.

Lemma makeFolderNode_entries n f node :
  Reach F f -> makeFolderNode cbp dbf cbf n f = Ok node ->
  forall e, In e (nodeEntries node) -> entryOk F D C e.
Proof.
  revert f node; induction n as [|n IH]; intros f node Hr H; simpl in H; [discriminate|].
  inv_bind H. injection H as <-.
  pose proof (lookupOrEmpty_Ok_proto _ _ _ E) as Hp.
  rewrite (lookupOrEmpty_bucket _ _ _ _ Hcbp Hp) in E.
  rewrite (lookupOrEmpty_bucket _ _ _ _ Hdbf Hp) in E1.
  rewrite (lookupOrEmpty_bucket _ _ _ _ Hcbf Hp) in E2.
  injection E as <-. injection E1 as <-. injection E2 as <-.
  intros e He. simpl in He. destruct He as [<-|He].
  - exists f; split; [exact Hr|reflexivity].
  - apply in_flat_map in He as [y [Hy He]]. rewrite !in_app_iff in Hy.
    destruct Hy as [Hy|[Hy|Hy]].
    + destruct (mapRes_Ok _ _ _ E0 y Hy) as [g [Hg Eg]].
      apply filter_In in Hg as [HgF Hgk]. apply String.eqb_eq in Hgk.
      exact (IH g y (reach_child F f g Hr HgF Hgk) Eg e He).
    + apply in_map_iff in Hy as [d [<- Hd]]. apply filter_In in Hd as [HdD Hdk].
      apply String.eqb_eq in Hdk. simpl in He. destruct He as [<-|[]].
      exists d. repeat split; [exact HdD|]. right. exists f. split; assumption.
    + apply in_map_iff in Hy as [c [<- Hc]]. apply filter_In in Hc as [HcC Hck].
      apply String.eqb_eq in Hck. simpl in He. destruct He as [<-|[]].
      exists c. repeat split; [exact HcC|]. right. exists f. split; assumption.
Qed.

Hypothesis HprotoF : forall f, In f F -> isProtoName (f_id f) = false.

Lemma makeFolderNode_notThrow n f :
  In f F -> notThrow (makeFolderNode cbp dbf cbf n f).
Proof.
  revert f; induction n as [|n IH]; intros f Hf; simpl; [exact I|].
  pose proof (HprotoF f Hf) as Hp.
  rewrite (lookupOrEmpty_bucket _ _ _ _ Hcbp Hp). simpl.
  apply bind_notThrow.
  - apply mapRes_notThrow. intros g Hg. apply filter_In in Hg as [Hg _]. apply IH, Hg.
  - intros sub _.
    rewrite (lookupOrEmpty_bucket _ _ _ _ Hdbf Hp), (lookupOrEmpty_bucket _ _ _ _ Hcbf Hp).
    exact I.
Qed.

End Buckets.

Lemma buildTree_entries lc fuel F D C forest :
  buildTree lc fuel F D C = Ok forest ->
  forall e, In e (forestEntries forest) -> entryOk F D C e.
Proof.
  unfold buildTree. intros H. inv_bind H. injection H as <-.
  assert (Hr : isProtoName ROOT_KEY = false) by reflexivity.
  rewrite (lookupOrEmpty_bucket _ _ _ _ E Hr) in E2.
  rewrite (lookupOrEmpty_bucket _ _ _ _ E0 Hr) in E4.
  rewrite (lookupOrEmpty_bucket _ _ _ _ E1 Hr) in E5.
  injection E2 as <-. injection E4 as <-. injection E5 as <-.
  intros e He. apply sorted_forest_entries in He.
  unfold forestEntries in He. apply in_flat_map in He as [y [Hy He]].
  rewrite !in_app_iff in Hy. destruct Hy as [Hy|[Hy|Hy]].
  - destruct (mapRes_Ok _ _ _ E3 y Hy) as [g [Hg Eg]].
    apply filter_In in Hg as [HgF Hgk]. apply String.eqb_eq in Hgk.
    exact (makeFolderNode_entries F D C _ _ _ E E0 E1 _ g y (reach_root F g HgF Hgk) Eg e He).
  - apply in_map_iff in Hy as [d [<- Hd]]. apply filter_In in Hd as [HdD Hdk].
    apply String.eqb_eq in Hdk. simpl in He. destruct He as [<-|[]].
    exists d. repeat split; [exact HdD|]. left. exact Hdk.
  - apply in_map_iff in Hy as [c [<- Hc]]. apply filter_In in Hc as [HcC Hck].
    apply String.eqb_eq in Hck. simpl in He. destruct He as [<-|[]].
    exists c. repeat split; [exact HcC|]. left. exact Hck.
Qed.

Lemma Reach_placed F f : Reach F f -> placedRef F (f_parentId f).
Proof.
  intros H; destruct H as [f Hf Hk|g f Hg Hf Hk]; [left; exact Hk|right; exists g; split; assumption].
Qed.

Lemma placed_not_dangling F r : plainRef r -> dangling F r -> placedRef F r -> False.
Proof.
  intros Hp [p [-> Hn]] [Hk|[g [Hg Hk]]]; simpl in Hk.
  - exact (proj1 (Hp p eq_refl) Hk).
  - apply Hn. exists g. split; [apply Reach_In, Hg|symmetry; exact Hk].
Qed.

Lemma plainRef_key r : plainRef r -> isProtoName (keyOf r) = false.
Proof. destruct r as [p|]; intros Hr; [exact (proj2 (Hr p eq_refl))|reflexivity]. Qed.

(** ** C3 *)

(** C3 (counterexample): a folder, a document and a character whose
    reference names no folder are not placed at the root: the forest is
    empty. *)
Lemma buildTree_dangling_not_at_root :
  buildTree codeUnitCompare 10 [mkFolder "a" "A" (Some "missing")]
    [mkDoc "d" "D" (Some "missing")] [mkCharacter "c" "C" (Some "missing")] = Ok [].
Proof. reflexivity. Qed.

(** C3 (amended): when ids are unique within their kind and no id or
    reference is the root key ["__ROOT__"] or an [Object.prototype] name,
    [buildTree] raises no error, and a folder, document or character whose
    non-null reference names no input folder appears nowhere in the forest:
    dangling rows are dropped, not placed at the root. *)
Theorem buildTree_dangling_dropped lc fuel F D C
  (HuF : NoDup (map f_id F)) (HuD : NoDup (map d_id D)) (HuC : NoDup (map c_id C))
  (HF : forall f, In f F -> plainRef (f_parentId f) /\ isProtoName (f_id f) = false)
  (HD : forall d, In d D -> plainRef (d_folderId d))
  (HC : forall c, In c C -> plainRef (c_folderId c)) :
  notThrow (buildTree lc fuel F D C) /\
  forall forest, buildTree lc fuel F D C = Ok forest ->
    (forall f, In f F -> dangling F (f_parentId f) ->
       ~ In (KFolder, f_id f) (forestEntries forest)) /\
    (forall d, In d D -> dangling F (d_folderId d) ->
       ~ In (KDoc, d_id d) (forestEntries forest)) /\
    (forall c, In c C -> dangling F (c_folderId c) ->
       ~ In (KCharacter, c_id c) (forestEntries forest)).
Proof.
  destruct (bucketBy_Ok f_parentId F [] (fun f Hf => plainRef_key _ (proj1 (HF f Hf))))
    as [cbp Hcbp].
  destruct (bucketBy_Ok d_folderId D [] (fun d Hd => plainRef_key _ (HD d Hd))) as [dbf Hdbf].
  destruct (bucketBy_Ok c_folderId C [] (fun c Hc => plainRef_key _ (HC c Hc))) as [cbf Hcbf].
  split.
  - unfold buildTree. rewrite Hcbp, Hdbf, Hcbf. simpl.
    rewrite (lookupOrEmpty_bucket _ _ _ ROOT_KEY Hcbp eq_refl). simpl.
    apply bind_notThrow.
    + apply mapRes_notThrow. intros g Hg. apply filter_In in Hg as [Hg _].
      apply (makeFolderNode_notThrow F D C cbp dbf cbf Hcbp Hdbf Hcbf
               (fun f Hf => proj2 (HF f Hf))), Hg.
    + intros sub _.
      rewrite (lookupOrEmpty_bucket _ _ _ ROOT_KEY Hdbf eq_refl),
              (lookupOrEmpty_bucket _ _ _ ROOT_KEY Hcbf eq_refl).
      exact I.
  - intros forest Hb. pose proof (buildTree_entries _ _ _ _ _ _ Hb) as He.
    repeat split.
    + intros f Hf Hdang Hin. destruct (He _ Hin) as [g [Hg Eid]].
      assert (g = f) as ->
        by (eapply NoDup_map_inj; [exact HuF|apply Reach_In, Hg|exact Hf|exact Eid]).
      exact (placed_not_dangling F _ (proj1 (HF f Hf)) Hdang (Reach_placed F f Hg)).
    + intros d Hd Hdang Hin. destruct (He _ Hin) as [d' [Hd' [Eid Hpl]]].
      assert (d' = d) as ->
        by (eapply NoDup_map_inj; [exact HuD|exact Hd'|exact Hd|exact Eid]).
      exact (placed_not_dangling F _ (HD d Hd) Hdang Hpl).
    + intros c Hc Hdang Hin. destruct (He _ Hin) as [c' [Hc' [Eid Hpl]]].
      assert (c' = c) as ->
        by (eapply NoDup_map_inj; [exact HuC|exact Hc'|exact Hc|exact Eid]).
      exact (placed_not_dangling F _ (HC c Hc) Hdang Hpl).
Qed.

Lemma buildTree_dangling_dropped_witness :
  notThrow (buildTree codeUnitCompare 2
              [mkFolder "f1" "Act I" None; mkFolder "a" "A" (Some "missing")]
              [mkDoc "d1" "Scene 1" (Some "f1"); mkDoc "d" "D" (Some "missing")] []) /\
  buildTree codeUnitCompare 2
    [mkFolder "f1" "Act I" None; mkFolder "a" "A" (Some "missing")]
    [mkDoc "d1" "Scene 1" (Some "f1"); mkDoc "d" "D" (Some "missing")] []
  = Ok [FolderNode "f1" "Act I" [DocNode "d1" "Scene 1"]].
Proof.
  split; [|reflexivity].
  apply (buildTree_dangling_dropped codeUnitCompare 2
           [mkFolder "f1" "Act I" None; mkFolder "a" "A" (Some "missing")]
           [mkDoc "d1" "Scene 1" (Some "f1"); mkDoc "d" "D" (Some "missing")] []).
  - repeat constructor; simpl; intuition discriminate.
  - repeat constructor; simpl; intuition discriminate.
  - constructor.
  - intros f [<-|[<-|[]]]; split; try reflexivity; intros p Hp; simpl in Hp;
      try discriminate; injection Hp as <-; (split; [discriminate|reflexivity]).
  - intros d [<-|[<-|[]]]; intros p Hp; simpl in Hp;
      injection Hp as <-; (split; [discriminate|reflexivity]).
  - intros c [].
Defined.

(** ** C4 *)

(** C4 (counterexample): the cycle A -> B -> A of the claim is not reached
    from the root bucket; [buildTree] returns at once, with no node. *)
Lemma cyclic_pair_terminates :
  buildTree codeUnitCompare 10 [mkFolder "A" "A" (Some "B"); mkFolder "B" "B" (Some "A")] [] []
  = Ok [].
Proof. reflexivity. Qed.

(** C4 (amended): there is an input with a cyclic parent chain on which
    [buildTree] does not terminate, but the claim's example is not one: the
    cycle A -> B -> A is not reached from the root bucket, and [buildTree]
    returns at once on it, dropping both folders. The input X = {id
    "__ROOT__", parentId "Y"}, Y = {id "Y", parentId "__ROOT__"} is one: no
    recursion depth suffices, every run ends out of fuel. *)
Theorem buildTree_root_key_cycle_diverges :
  (forall lc fuel,
      buildTree lc fuel [mkFolder "__ROOT__" "X" (Some "Y"); mkFolder "Y" "Y" (Some "__ROOT__")]
        [] [] = OutOfFuel) /\
  (forall lc fuel,
      buildTree lc fuel [mkFolder "A" "A" (Some "B"); mkFolder "B" "B" (Some "A")] [] [] = Ok []).
Proof.
  split; [|intros; reflexivity].
  intros lc fuel.
  set (X := mkFolder "__ROOT__" "X" (Some "Y")). set (Y := mkFolder "Y" "Y" (Some "__ROOT__")).
  set (cbp := [("Y", [X]); ("__ROOT__", [Y])] : JsRecord Folder).
  assert (Hloop : forall n, makeFolderNode cbp [] [] n Y = OutOfFuel /\
                            makeFolderNode cbp [] [] n X = OutOfFuel).
  { induction n as [|n [IHY IHX]]; [split; reflexivity|].
    split; simpl; [rewrite IHX|rewrite IHY]; reflexivity. }
  unfold buildTree. simpl. fold X Y cbp. rewrite (proj1 (Hloop fuel)). reflexivity.
Qed.

(** ** C10 *)

(** C10 (code bug): a folder and a document whose reference is the string
    ["__ROOT__"], which names no folder of the input, are shown at the root:
    [keyOf] maps such a reference to the same key as a null one. *)
Lemma buildTree_root_key_reference_at_root :
  dangling [mkFolder "a" "A" (Some "__ROOT__")] (Some "__ROOT__") /\
  forall lc n,
    buildTree lc (S n) [mkFolder "a" "A" (Some "__ROOT__")] [mkDoc "d" "D" (Some "__ROOT__")] []
    = Ok [FolderNode "a" "A" []; DocNode "d" "D"].
Proof.
  split.
  - exists "__ROOT__". split; [reflexivity|]. intros [g [[<-|[]] Hg]]. discriminate.
  - intros lc n. reflexivity.
Qed.

End ReachFacts.

Module PurityFacts.
Import Tree TreeFacts BucketFacts.

(** *** Fuel: a finished run gives the same result with more fuel *)

Lemma mapRes_resolved_ext {A B : Type} (h1 h2 : A -> Res B) l :
  mapRes h1 l <> OutOfFuel ->
  (forall x, In x l -> h1 x <> OutOfFuel -> h2 x = h1 x) ->
  mapRes h2 l = mapRes h1 l.
Proof.
  induction l as [|x l IH]; intros Hn Hext; simpl in *; [reflexivity|].
  destruct (h1 x) as [y|e|] eqn:E; simpl in Hn; [| |congruence].
  - rewrite (Hext x (or_introl eq_refl)) by congruence. rewrite E. simpl.
    destruct (mapRes h1 l) eqn:E2; simpl in Hn; try congruence;
      rewrite IH by (congruence || (intros; apply Hext; auto)); reflexivity.
  - rewrite (Hext x (or_introl eq_refl)) by congruence. rewrite E. reflexivity.
Qed.

Lemma makeFolderNode_mono cbp dbf cbf n m f :
  n <= m -> makeFolderNode cbp dbf cbf n f <> OutOfFuel ->
  makeFolderNode cbp dbf cbf m f = makeFolderNode cbp dbf cbf n f.
Proof.
  revert m f; induction n as [|n IH]; intros m f Hle Hn; [simpl in Hn; congruence|].
  destruct m as [|m]; [lia|]. simpl in *.
  destruct (lookupOrEmpty cbp (f_id f)) as [kids|e|]; simpl in *; try reflexivity; try congruence.
  assert (Hm : mapRes (makeFolderNode cbp dbf cbf n) kids <> OutOfFuel)
    by (intro E; rewrite E in Hn; simpl in Hn; congruence).
  rewrite (mapRes_resolved_ext _ _ kids Hm (fun g _ Hg => IH m g ltac:(lia) Hg)).
  reflexivity.
Qed.

Lemma buildTree_mono lc n m F D C :
  n <= m -> buildTree lc n F D C <> OutOfFuel -> buildTree lc m F D C = buildTree lc n F D C.
Proof.
  unfold buildTree. intros Hle Hn.
  destruct (bucketBy f_parentId F []) as [cbp|e|]; simpl in *; try reflexivity; try congruence.
  destruct (bucketBy d_folderId D []) as [dbf|e|]; simpl in *; try reflexivity; try congruence.
  destruct (bucketBy c_folderId C []) as [cbf|e|]; simpl in *; try reflexivity; try congruence.
  destruct (lookupOrEmpty cbp ROOT_KEY) as [rf|e|]; simpl in *; try reflexivity; try congruence.
  assert (Hm : mapRes (makeFolderNode cbp dbf cbf n) rf <> OutOfFuel)
    by (intro E; rewrite E in Hn; simpl in Hn; congruence).
  rewrite (mapRes_resolved_ext _ _ rf Hm
             (fun g _ Hg => makeFolderNode_mono cbp dbf cbf n m g Hle Hg)).
  reflexivity.
Qed.

(** *** The heap-level bucketing loop *)

Lemma readArr_pushAt {A : Type} (h : Heap A) l x l' :
  l < List.length h ->
  readArr (pushAt h l x) l' = if Nat.eqb l' l then readArr h l ++ [x] else readArr h l'.
Proof.
  unfold readArr, pushAt. revert l l'.
  induction h as [|a h IH]; intros l l' Hl; simpl in Hl; [lia|].
  destruct l as [|l], l' as [|l']; simpl; try reflexivity.
  apply IH. lia.
Qed.

Lemma length_pushAt {A : Type} (h : Heap A) l x : List.length (pushAt h l x) = List.length h.
Proof.
  unfold pushAt. revert l; induction h as [|a h IH]; intros [|l]; simpl; auto.
Qed.

Lemma readArr_app_lt {A : Type} (h : Heap A) t l :
  l < List.length h -> readArr (h ++ t) l = readArr h l.
Proof. intros Hl. unfold readArr. apply app_nth1, Hl. Qed.

Lemma readArr_fresh {A : Type} (h : Heap A) : readArr (h ++ [[]]) (List.length h) = [].
Proof. unfold readArr. rewrite nth_middle. reflexivity. Qed.

Lemma getOr_ownSet {A : Type} (pm : JsRecord A) k v k' :
  getOr (ownSet pm k v) k' = if String.eqb k' k then v else getOr pm k'.
Proof. unfold getOr. rewrite ownGet_ownSet. destruct (String.eqb k' k); reflexivity. Qed.

Lemma bucketPush_step {A : Type} (pm : JsRecord A) k x :
  isProtoName k = false ->
  exists pm', bucketPush pm k x = Ok pm' /\
    forall k', getOr pm' k' = if String.eqb k' k then getOr pm k ++ [x] else getOr pm k'.
Proof.
  intros Hp. unfold bucketPush. rewrite Hp.
  destruct (ownGet pm k) as [xs|] eqn:E; eexists; split; try reflexivity;
    intros k'; rewrite getOr_ownSet; unfold getOr at 2; rewrite E; reflexivity.
Qed.

Lemma bucketPushH_step {A : Type} n0 m (h : Heap A) k x :
  isProtoName k = false -> HeapInv n0 m h ->
  exists m' h', bucketPushH m h k x = Ok (m', h') /\ HeapInv n0 m' h' /\
    (forall l, l < n0 -> readArr h' l = readArr h l) /\
    (forall k', getOrH m' h' k' = if String.eqb k' k then getOrH m h k ++ [x] else getOrH m h k').
Proof.
  intros Hp [Hn0 [Hb Hinj]]. unfold bucketPushH. rewrite Hp.
  destruct (ownGet m k) as [l|] eqn:Ek.
  - pose proof (Hb k l Ek) as Hl.
    exists m, (pushAt h l x). split; [reflexivity|]. split; [|split].
    + unfold HeapInv. rewrite length_pushAt. split; [exact Hn0|split; [exact Hb|exact Hinj]].
    + intros l' Hl'. rewrite readArr_pushAt by lia.
      destruct (Nat.eqb_spec l' l); [lia|reflexivity].
    + intros k'. unfold getOrH. rewrite Ek.
      destruct (String.eqb_spec k' k) as [->|Hne]; [rewrite Ek, readArr_pushAt, Nat.eqb_refl by lia; reflexivity|].
      destruct (ownGet m k') as [l'|] eqn:Ek'; [|reflexivity].
      rewrite readArr_pushAt by lia. destruct (Nat.eqb_spec l' l) as [->|]; [|reflexivity].
      exfalso. apply Hne. exact (Hinj k' k l Ek' Ek).
  - set (L := List.length h).
    exists (ownSet m k L), (pushAt (h ++ [[]]) L x). split; [reflexivity|].
    assert (HL : List.length (pushAt (h ++ [[]]) L x) = S L)
      by (rewrite length_pushAt, length_app; simpl; unfold L; lia).
    split; [|split].
    + unfold HeapInv. rewrite HL. split; [lia|split].
      * intros k' l'. rewrite ownGet_ownSet. destruct (String.eqb k' k).
        -- intros E; injection E as <-. lia.
        -- intros E. pose proof (Hb k' l' E). lia.
      * intros k1 k2 l'. rewrite !ownGet_ownSet.
        destruct (String.eqb_spec k1 k) as [->|], (String.eqb_spec k2 k) as [->|]; auto;
          intros E1 E2; try (injection E1 as <-); try (injection E2 as <-);
          try (pose proof (Hb _ _ E1)); try (pose proof (Hb _ _ E2)); try lia.
        exact (Hinj _ _ _ E1 E2).
    + intros l' Hl'. rewrite readArr_pushAt by (rewrite length_app; simpl; unfold L; lia).
      destruct (Nat.eqb_spec l' L); [unfold L in *; lia|].
      apply readArr_app_lt. unfold L in *; lia.
    + intros k'. unfold getOrH. rewrite ownGet_ownSet, Ek.
      destruct (String.eqb_spec k' k) as [->|Hne].
      * rewrite readArr_pushAt, Nat.eqb_refl by (rewrite length_app; simpl; unfold L; lia).
        unfold L. rewrite readArr_fresh. reflexivity.
      * destruct (ownGet m k') as [l'|] eqn:Ek'; [|reflexivity].
        pose proof (Hb _ _ Ek') as Hl'.
        rewrite readArr_pushAt by (rewrite length_app; simpl; unfold L; lia).
        destruct (Nat.eqb_spec l' L); [unfold L in *; lia|].
        apply readArr_app_lt. unfold L in *; lia.
Qed.

Lemma skipn_nth_error {A : Type} (l : list A) i x :
  nth_error l i = Some x -> skipn i l = x :: skipn (S i) l.
Proof.
  revert i; induction l as [|a l IH]; intros [|i] H; simpl in *; try discriminate.
  - injection H as ->. reflexivity.
  - apply IH, H.
Qed.

Section Loop.
Context {A : Type} (ref : A -> option string) (h0 : Heap A) (src : loc).
Hypothesis Hsrc : src < List.length h0.

Lemma forOfBucket_sim fuel : forall i m h pm,
  HeapInv (List.length h0) m h ->
  (forall l, l < List.length h0 -> readArr h l = readArr h0 l) ->
  (forall k, getOrH m h k = getOr pm k) ->
  List.length (readArr h0 src) - i < fuel ->
  match forOfBucket ref fuel src i m h, bucketBy ref (skipn i (readArr h0 src)) pm with
  | Ok (m', h'), Ok pm' =>
      (forall l, l < List.length h0 -> readArr h' l = readArr h0 l) /\
      (forall k, getOrH m' h' k = getOr pm' k)
  | Throw e1, Throw e2 => e1 = e2
  | _, _ => False
  end.
Proof.
  induction fuel as [|fuel IH]; intros i m h pm Hinv Hpres Hrel Hfuel; [lia|].
  simpl. rewrite (Hpres src Hsrc).
  destruct (nth_error (readArr h0 src) i) as [x|] eqn:Ei.
  - rewrite (skipn_nth_error _ _ _ Ei). simpl.
    assert (Hi : i < List.length (readArr h0 src))
      by (apply nth_error_Some; congruence).
    destruct (isProtoName (keyOf (ref x))) eqn:Hp.
    + unfold bucketPushH, bucketPush. rewrite Hp. reflexivity.
    + destruct (bucketPushH_step _ m h _ x Hp Hinv) as [m1 [h1 [EH [Hinv1 [Hpres1 Hrel1]]]]].
      destruct (bucketPush_step pm _ x Hp) as [pm1 [EP Hrel1']].
      rewrite EH, EP. simpl.
      apply IH; [exact Hinv1| |intros k; rewrite Hrel1, Hrel1', !Hrel; reflexivity|lia].
      intros l Hl. rewrite Hpres1 by exact Hl. apply Hpres, Hl.
  - apply nth_error_None in Ei. rewrite skipn_all2 by exact Ei. simpl.
    split; assumption.
Qed.

End Loop.

(** ** C5 *)

(** C5: [buildTree] is a function of its input (for the host's fixed
    [localeCompare]): two runs that finish, whatever recursion depth they
    were given, return the same result, forest or error. Its only writes to
    arrays are the [push]es of the bucketing loops; run on a heap holding
    the input array, such a loop leaves every array that existed before it
    (the inputs among them) unchanged, and its buckets are those of the
    model of [buildTree]. *)
Theorem buildTree_deterministic_no_mutation :
  (forall lc F D C n m,
      buildTree lc n F D C <> OutOfFuel -> buildTree lc m F D C <> OutOfFuel ->
      buildTree lc n F D C = buildTree lc m F D C) /\
  (forall (A : Type) (ref : A -> option string) (h0 : Heap A) src fuel,
      src < List.length h0 -> List.length (readArr h0 src) < fuel ->
      match forOfBucket ref fuel src 0 [] h0, bucketBy ref (readArr h0 src) [] with
      | Ok (m', h'), Ok pm' =>
          (forall l, l < List.length h0 -> readArr h' l = readArr h0 l) /\
          (forall k, getOrH m' h' k = getOr pm' k)
      | Throw e1, Throw e2 => e1 = e2
      | _, _ => False
      end).
Proof.
  split.
  - intros lc F D C n m Hn Hm. destruct (Nat.le_ge_cases n m) as [Hle|Hge].
    + symmetry. apply buildTree_mono; assumption.
    + apply buildTree_mono; assumption.
  - intros A ref h0 src fuel Hsrc Hfuel.
    apply (forOfBucket_sim ref h0 src Hsrc fuel 0 [] h0 []).
    + split; [lia|split; intros; discriminate].
    + reflexivity.
    + reflexivity.
    + lia.
Qed.

Lemma buildTree_deterministic_no_mutation_witness :
  buildTree codeUnitCompare 2 [mkFolder "f1" "Act I" None] [mkDoc "d1" "Scene 1" (Some "f1")] []
  = buildTree codeUnitCompare 7 [mkFolder "f1" "Act I" None] [mkDoc "d1" "Scene 1" (Some "f1")] []
  /\ readArr [[mkFolder "f1" "Act I" None]] 0 = [mkFolder "f1" "Act I" None].
Proof.
  split.
  - apply (proj1 buildTree_deterministic_no_mutation); vm_compute; discriminate.
  - pose proof (proj2 buildTree_deterministic_no_mutation Folder f_parentId
                  [[mkFolder "f1" "Act I" None]] 0 2 ltac:(simpl; lia) ltac:(simpl; lia)) as H.
    vm_compute in H. destruct H as [H _]. apply (H 0). simpl. lia.
Defined.

End PurityFacts.

Module UiFacts.
Import TreeUi.

(** ** C2 *)

(** C2: selecting a document or a character in the tree clears the other
    field, so the selection is exclusive afterwards; the result link of the
    search panel only writes [currentDocId], and from a state where a
    character is selected it leaves both fields non-empty. *)
Theorem selection_exclusive_but_search_click :
  (forall s x, currentCharId (selectDoc x s) = "" /\ currentDocId (selectDoc x s) = x) /\
  (forall s y, currentDocId (selectChar y s) = "" /\ currentCharId (selectChar y s) = y) /\
  (forall s x, selectionExclusive (selectDoc x s)) /\
  (forall s y, selectionExclusive (selectChar y s)) /\
  (let s0 := mkUi "/proj" "" "c1" [] [] [] [] false false None [] [] in
   selectionExclusive s0 /\ ~ selectionExclusive (searchResultClick "d1" s0)).
Proof.
  split; [intros; split; reflexivity|].
  split; [intros; split; reflexivity|].
  split; [intros; right; reflexivity|].
  split; [intros; left; reflexivity|].
  cbv zeta. unfold selectionExclusive, searchResultClick, setDocId. simpl. split.
  - left; reflexivity.
  - intros [H|H]; discriminate.
Qed.

(** ** C7 *)

Lemma promptName_empty raw :
  raw = None \/ (exists r, raw = Some r /\ trim r = []) -> promptName raw = None.
Proof.
  intros [->|[r [-> Hr]]]; [reflexivity|]. unfold promptName. rewrite Hr. reflexivity.
Qed.

Lemma addAlert_sameModel m s : sameModel s (addAlert m s).
Proof. repeat split. Qed.

Lemma sameModel_refl s : sameModel s s.
Proof. repeat split. Qed.

(** C7: when the prompt is cancelled ([null]) or its answer trims to the
    empty string, each create handler returns without an engine call and
    leaves the collections, the selection and the expansion map as they
    were: the state is untouched, or, with no project open, only an alert
    is shown. *)
Theorem create_aborts_on_empty_name E s parent raw :
  raw = None \/ (exists r, raw = Some r /\ trim r = []) ->
  let s' := if String.eqb (projectPath s) "" then addAlert NO_PROJECT s else s in
  createFolder E parent raw s = (Done tt, s') /\
  createDoc E parent raw s = (Done tt, s') /\
  createCharacterTab E parent raw s = (Done tt, s') /\
  sameModel s s'.
Proof.
  intros Hraw. pose proof (promptName_empty raw Hraw) as Hp. simpl.
  unfold createFolder, createDoc, createCharacterTab, mbind, get.
  destruct (String.eqb (projectPath s) ""); rewrite ?Hp;
    repeat split.
Qed.

Lemma create_aborts_on_empty_name_witness :
  let E := mkEngine (fun _ _ _ => Some tt) (fun _ _ _ => Some "n") (fun _ _ _ => Some "n")
             (fun _ => Some (mkListing [] [] None)) (fun _ _ => Some tt)
             (fun _ _ => Some tt) (fun _ _ => Some tt) in
  let s := mkUi "/proj" "d1" "" [] [] [] [] false false None [] [] in
  let blank := [32; 160; 8195; 12288; 10]%N in
  (Some blank = None \/ (exists r, Some blank = Some r /\ trim r = [])) /\
  createDoc E None (Some blank) s = (Done tt, s).
Proof.
  intros E s blank. split.
  - right. exists blank. split; reflexivity.
  - apply (create_aborts_on_empty_name E s None (Some blank)).
    right. exists blank. split; reflexivity.
Defined.

(** ** C8 *)

Lemma confirmDialogClose_closed E b s :
  confirmOpen s = false -> confirmDialogClose E b s = (Done tt, s).
Proof. intros H. unfold confirmDialogClose, mbind, get. rewrite H. reflexivity. Qed.

(** C8: deleting a folder takes two steps. The request only opens the
    dialog (no engine call); while the dialog is closed its answer does
    nothing; cancelling restores the state. Confirming (project open,
    folder id non-empty, engine calls resolving) calls the recursive delete,
    then clears both selection fields whatever they held, then lists the
    tree again and installs the new collections. *)
Theorem deleteFolder_two_step E s id :
  confirmOpen s = false -> pendingFolderId s = None ->
  projectPath s <> "" -> id <> "" ->
  let s1 := snd (requestDeleteFolder id s) in
  calls s1 = calls s /\ confirmOpen s1 = true /\
  (forall b, confirmDialogClose E b s = (Done tt, s)) /\
  confirmDialogClose E false s1 = (Done tt, s) /\
  (forall L, e_deleteFolderRecursive E (projectPath s) id = Some tt ->
             e_listTree E (projectPath s) = Some L ->
   let s2 := snd (confirmDialogClose E true s1) in
   calls s2 = calls s ++ [DeleteFolderRecursive (projectPath s) id; ListTree (projectPath s)] /\
   currentDocId s2 = "" /\ currentCharId s2 = "" /\
   folders s2 = l_folders L /\ docs s2 = l_docs L /\
   characters s2 = (match l_characters L with Some c => c | None => [] end) /\
   confirmOpen s2 = false /\ pendingFolderId s2 = None /\ alerts s2 = alerts s).
Proof.
  intros Hc Hpend Hpath Hid.
  destruct s as [pp cd cc fo dc ch ex mv co pf ca al]; simpl in *; subst co pf.
  apply String.eqb_neq in Hpath. apply String.eqb_neq in Hid.
  split; [reflexivity|]. split; [reflexivity|]. split.
  { intros b. apply confirmDialogClose_closed. reflexivity. }
  split; [reflexivity|].
  intros L Hdel Hlist.
  unfold confirmDialogClose, requestDeleteFolder, actuallyDeleteFolder, voidM, tryCatch,
    refresh, invoke, alert, modify, mbind, get, ret, truthy; simpl.
  rewrite Hid; simpl. rewrite Hpath, Hdel; simpl. rewrite Hpath, Hlist; simpl.
  repeat split. rewrite <- app_assoc. reflexivity.
Qed.

Lemma deleteFolder_two_step_witness :
  let E := mkEngine (fun _ _ _ => Some tt) (fun _ _ _ => Some "n") (fun _ _ _ => Some "n")
             (fun _ => Some (mkListing [] [] None)) (fun _ _ => Some tt)
             (fun _ _ => Some tt) (fun _ _ => Some tt) in
  let s := mkUi "/proj" "d1" "" [] [] [] [] false false None [] [] in
  currentDocId (snd (confirmDialogClose E true (snd (requestDeleteFolder "f1" s)))) = "".
Proof.
  intros E s.
  destruct (deleteFolder_two_step E s "f1" eq_refl eq_refl ltac:(discriminate) ltac:(discriminate))
    as [_ [_ [_ [_ H]]]].
  apply (H (mkListing [] [] None) eq_refl eq_refl).
Defined.

(** ** C9 *)

(** C9: deleting a document or a character asks for no confirmation: the
    handler calls the engine at once. When the delete and the listing
    resolve, the matching selection field is cleared only if it held the
    deleted id, the other field is kept, and the collections are the new
    listing. When the delete rejects, the selection and the collections are
    kept, the tree is not listed again and an alert is shown. *)
Theorem deleteDoc_deleteCharacter_outcomes E s id :
  projectPath s <> "" ->
  (forall L, e_deleteDoc E (projectPath s) id = Some tt -> e_listTree E (projectPath s) = Some L ->
   let s' := snd (handleDeleteDoc E id s) in
   calls s' = calls s ++ [DeleteDoc (projectPath s) id; ListTree (projectPath s)] /\
   currentDocId s' = (if String.eqb (currentDocId s) id then "" else currentDocId s) /\
   currentCharId s' = currentCharId s /\
   folders s' = l_folders L /\ docs s' = l_docs L /\
   characters s' = (match l_characters L with Some c => c | None => [] end) /\
   alerts s' = alerts s) /\
  (e_deleteDoc E (projectPath s) id = None ->
   let s' := snd (handleDeleteDoc E id s) in
   calls s' = calls s ++ [DeleteDoc (projectPath s) id] /\
   currentDocId s' = currentDocId s /\ currentCharId s' = currentCharId s /\
   folders s' = folders s /\ docs s' = docs s /\ characters s' = characters s /\
   alerts s' = alerts s ++ ["Failed to delete document. See console for details."]) /\
  (forall L, e_deleteCharacter E (projectPath s) id = Some tt -> e_listTree E (projectPath s) = Some L ->
   let s' := snd (handleDeleteCharacter E id s) in
   calls s' = calls s ++ [DeleteCharacter (projectPath s) id; ListTree (projectPath s)] /\
   currentCharId s' = (if String.eqb (currentCharId s) id then "" else currentCharId s) /\
   currentDocId s' = currentDocId s /\
   folders s' = l_folders L /\ docs s' = l_docs L /\
   characters s' = (match l_characters L with Some c => c | None => [] end) /\
   alerts s' = alerts s) /\
  (e_deleteCharacter E (projectPath s) id = None ->
   let s' := snd (handleDeleteCharacter E id s) in
   calls s' = calls s ++ [DeleteCharacter (projectPath s) id] /\
   currentDocId s' = currentDocId s /\ currentCharId s' = currentCharId s /\
   folders s' = folders s /\ docs s' = docs s /\ characters s' = characters s /\
   alerts s' = alerts s ++ ["Failed to delete character. See console for details."]).
Proof.
  intros Hpath.
  destruct s as [pp cd cc fo dc ch ex mv co pf ca al]; simpl in *.
  apply String.eqb_neq in Hpath.
  unfold handleDeleteDoc, handleDeleteCharacter, tryCatch, refresh, invoke, alert,
    modify, mbind, get, ret; simpl; rewrite Hpath.
  split; [|split; [|split]].
  - intros L Hdel Hlist. rewrite Hdel. simpl.
    destruct (String.eqb cd id); simpl; rewrite Hpath, Hlist; simpl;
      repeat split; rewrite <- app_assoc; reflexivity.
  - intros Hdel. rewrite Hdel. simpl. repeat split.
  - intros L Hdel Hlist. rewrite Hdel. simpl.
    destruct (String.eqb cc id); simpl; rewrite Hpath, Hlist; simpl;
      repeat split; rewrite <- app_assoc; reflexivity.
  - intros Hdel. rewrite Hdel. simpl. repeat split.
Qed.

Lemma deleteDoc_deleteCharacter_outcomes_witness :
  let E := mkEngine (fun _ _ _ => Some tt) (fun _ _ _ => Some "n") (fun _ _ _ => Some "n")
             (fun _ => Some (mkListing [] [] None)) (fun _ _ => Some tt)
             (fun _ _ => None) (fun _ _ => Some tt) in
  let s := mkUi "/proj" "d1" "" [] [] [] [] false false None [] [] in
  currentDocId (snd (handleDeleteDoc E "d1" s)) = "d1".
Proof.
  intros E s.
  destruct (deleteDoc_deleteCharacter_outcomes E s "d1" ltac:(discriminate))
    as [_ [H _]].
  apply (H eq_refl).
Defined.

End UiFacts.

Module AutosaveFacts.
Import Autosave.

Section Fields.
Context {B : Type} (latency : nat -> option nat).

Lemma settle_fields (s : Saver B) :
  activeId (settle s) = activeId s /\ buffer (settle s) = buffer s /\ clock (settle s) = clock s /\
  sinceArm (settle s) = sinceArm s /\ saves (settle s) = saves s.
Proof. unfold settle. destruct (existsb _ _); cbn; auto. Qed.

Lemma settle_last (s : Saver B) :
  lastSaved (settle s) = lastSaved s \/ lastSaved (settle s) = clock s.
Proof. unfold settle. destruct (existsb _ _); cbn; auto. Qed.

Lemma settle_nil (s : Saver B) : pending s = [] -> settle s = s.
Proof. intros H. unfold settle. rewrite H. reflexivity. Qed.

Lemma settle_keep (s : Saver B) t :
  In t (pending s) -> clock s < t -> In t (pending (settle s)).
Proof.
  intros Hi Hc. unfold settle. destruct (existsb _ _); cbn; [|exact Hi].
  apply filter_In. split; [exact Hi|]. apply Nat.ltb_lt, Hc.
Qed.

Lemma settle_hit (s : Saver B) t :
  In t (pending s) -> t <= clock s -> lastSaved (settle s) = clock s.
Proof.
  intros Hi Hc. unfold settle.
  replace (existsb (fun t => Nat.leb t (clock s)) (pending s)) with true; [reflexivity|].
  symmetry. apply existsb_exists. exists t. split; [exact Hi|]. apply Nat.leb_le, Hc.
Qed.

(** The last save is stamped at [t]: either it has just been, or a save
    still in flight resolves at [t]. *)
Definition Stamped (s : Saver B) (t : nat) : Prop :=
  (t = clock s /\ lastSaved s = t) \/ (clock s < t /\ In t (pending s)).

Lemma settle_stamped (s : Saver B) t : Stamped s t -> Stamped (settle s) t.
Proof.
  destruct (settle_fields s) as (_ & _ & C & _ & _).
  intros [[E L]|[Lt Hi]]; unfold Stamped; rewrite C.
  - left. split; [exact E|]. destruct (settle_last s) as [L'|L']; congruence.
  - right. split; [exact Lt|]. now apply settle_keep.
Qed.

Lemma flush_fields (s : Saver B) :
  activeId (flush latency s) = activeId s /\ buffer (flush latency s) = buffer s /\
  clock (flush latency s) = clock s /\ sinceArm (flush latency s) = sinceArm s /\
  saves (flush latency s) = saves s ++ [(activeId s, buffer s)].
Proof.
  unfold flush. destruct (latency _); cbn; [|auto].
  destruct (settle_fields (mkSaver (activeId s) (buffer s) (lastSaved s) (clock s) (sinceArm s)
    (saves s ++ [(activeId s, buffer s)]) (pending s ++ [clock s + n]))) as (A & Bu & C & K & Sv).
  cbn in *. auto.
Qed.

Lemma flush_stamped (s : Saver B) t : Stamped s t -> Stamped (flush latency s) t.
Proof.
  intros H. unfold flush. destruct (latency _).
  - apply settle_stamped. destruct H as [[E L]|[Lt Hi]]; [left; auto|right].
    cbn. split; [exact Lt|]. apply in_or_app. left. exact Hi.
  - exact H.
Qed.

(** A save that will resolve after [d] ms stamps the time it resolves. *)
Lemma flush_registers (s : Saver B) d :
  latency (List.length (saves s)) = Some d -> Stamped (flush latency s) (clock s + d).
Proof.
  intros Hd. unfold flush. rewrite Hd.
  set (s0 := mkSaver (activeId s) (buffer s) (lastSaved s) (clock s) (sinceArm s)
                     (saves s ++ [(activeId s, buffer s)]) (pending s ++ [clock s + d])).
  assert (Hi : In (clock s + d) (pending s0)).
  { cbn. apply in_or_app. right. left. reflexivity. }
  destruct (settle_fields s0) as (_ & _ & C & _ & _). cbn in C.
  unfold Stamped. rewrite C. destruct d as [|d].
  - left. split; [lia|]. rewrite (settle_hit s0 _ Hi) by (cbn; lia). cbn. lia.
  - right. split; [lia|]. apply settle_keep; [exact Hi|cbn; lia].
Qed.

Lemma fire_fields (s : Saver B) :
  activeId (fire latency s) = activeId s /\ buffer (fire latency s) = buffer s /\
  clock (fire latency s) = clock s /\ sinceArm (fire latency s) = sinceArm s /\
  saves (fire latency s) =
    saves s ++ (if String.eqb (activeId s) "" then [] else [(activeId s, buffer s)]).
Proof.
  unfold fire. destruct (String.eqb (activeId s) ""); [rewrite app_nil_r; auto|].
  apply flush_fields.
Qed.

Lemma fire_last (s : Saver B) :
  lastSaved (fire latency s) = lastSaved s \/ lastSaved (fire latency s) = clock s.
Proof.
  unfold fire. destruct (String.eqb (activeId s) ""); [auto|].
  unfold flush. destruct (latency _); cbn; [|auto].
  destruct (settle_last (mkSaver (activeId s) (buffer s) (lastSaved s) (clock s) (sinceArm s)
    (saves s ++ [(activeId s, buffer s)]) (pending s ++ [clock s + n]))) as [L|L]; cbn in L; auto.
Qed.

Lemma fire_stamped (s : Saver B) t : Stamped s t -> Stamped (fire latency s) t.
Proof.
  intros H. unfold fire. destruct (String.eqb (activeId s) ""); [exact H|]. now apply flush_stamped.
Qed.

(** One millisecond: what [tick] keeps and what it changes. *)
Lemma tick_spec (s : Saver B) :
  activeId (tick latency s) = activeId s /\ buffer (tick latency s) = buffer s /\
  clock (tick latency s) = S (clock s) /\
  (S (sinceArm s) = AUTOSAVE_MS ->
   sinceArm (tick latency s) = 0 /\
   saves (tick latency s) =
     saves s ++ (if String.eqb (activeId s) "" then [] else [(activeId s, buffer s)])) /\
  (S (sinceArm s) <> AUTOSAVE_MS ->
   sinceArm (tick latency s) = S (sinceArm s) /\ saves (tick latency s) = saves s).
Proof.
  unfold tick.
  pose proof (settle_fields (mkSaver (activeId s) (buffer s) (lastSaved s) (S (clock s))
                (S (sinceArm s)) (saves s) (pending s))) as (A & Bu & C & K & Sv).
  cbn [activeId buffer clock sinceArm saves] in A, Bu, C, K, Sv.
  revert A Bu C K Sv.
  generalize (settle (mkSaver (activeId s) (buffer s) (lastSaved s) (S (clock s))
                (S (sinceArm s)) (saves s) (pending s))).
  intros s1 A Bu C K Sv. rewrite K.
  destruct (Nat.eqb_spec (S (sinceArm s)) AUTOSAVE_MS) as [E|E].
  - destruct (fire_fields (mkSaver (activeId s1) (buffer s1) (lastSaved s1) (clock s1) 0
                 (saves s1) (pending s1))) as (A2 & B2 & C2 & K2 & Sv2).
    cbn [activeId buffer clock sinceArm saves] in A2, B2, C2, K2, Sv2.
    rewrite A2, B2, C2, K2, Sv2, A, Bu, C, Sv.
    split; [reflexivity|split; [reflexivity|split; [reflexivity|split]]].
    + intros _. split; reflexivity.
    + intros F. contradiction.
  - split; [exact A|split; [exact Bu|split; [exact C|split]]].
    + intros F. contradiction.
    + intros _. split; [exact K|exact Sv].
Qed.

Lemma tick_last (s : Saver B) :
  lastSaved (tick latency s) = lastSaved s \/ lastSaved (tick latency s) = S (clock s).
Proof.
  unfold tick.
  pose proof (settle_fields (mkSaver (activeId s) (buffer s) (lastSaved s) (S (clock s))
                (S (sinceArm s)) (saves s) (pending s))) as (_ & _ & C & _ & _).
  pose proof (settle_last (mkSaver (activeId s) (buffer s) (lastSaved s) (S (clock s))
                (S (sinceArm s)) (saves s) (pending s))) as L.
  cbn [clock lastSaved] in C, L. revert C L.
  generalize (settle (mkSaver (activeId s) (buffer s) (lastSaved s) (S (clock s))
                (S (sinceArm s)) (saves s) (pending s))).
  intros s1 C L. destruct (Nat.eqb _ _); [|exact L].
  destruct (fire_last (mkSaver (activeId s1) (buffer s1) (lastSaved s1) (clock s1) 0
               (saves s1) (pending s1))) as [L2|L2]; cbn in L2; rewrite L2; [exact L|right; exact C].
Qed.

(** A save in flight until [t] is still in flight, or has just stamped
    [t], one millisecond later. *)
Lemma tick_stamped (s : Saver B) t :
  clock s < t -> In t (pending s) -> Stamped (tick latency s) t.
Proof.
  intros Lt Hi. unfold tick.
  set (s0 := mkSaver (activeId s) (buffer s) (lastSaved s) (S (clock s)) (S (sinceArm s))
                     (saves s) (pending s)).
  assert (H0 : Stamped (settle s0) t).
  { destruct (settle_fields s0) as (_ & _ & C & _ & _). cbn in C.
    unfold Stamped. rewrite C. destruct (Nat.eq_dec t (S (clock s))) as [E|E].
    - left. split; [exact E|]. rewrite (settle_hit s0 t Hi) by (cbn; lia). cbn. lia.
    - right. split; [lia|]. apply settle_keep; [exact Hi|cbn; lia]. }
  revert H0. generalize (settle s0). intros s1 H1.
  destruct (Nat.eqb _ _); [|exact H1].
  apply fire_stamped. exact H1.
Qed.

Lemma wait_stamped n (s : Saver B) t :
  Stamped s t -> t = clock s + n -> lastSaved (wait latency n s) = t.
Proof.
  revert s; induction n as [|n IH]; intros s H Et.
  - cbn [wait]. destruct H as [[_ L]|[Lt _]]; [exact L|lia].
  - cbn [wait]. destruct H as [[E _]|[Lt Hi]]; [lia|].
    apply IH; [now apply tick_stamped|].
    destruct (tick_spec s) as (_ & _ & C & _ & _). rewrite C. lia.
Qed.

Lemma wait_add (n m : nat) (s : Saver B) :
  wait latency (n + m) s = wait latency m (wait latency n s).
Proof. revert s; induction n as [|n IH]; intros s; simpl; auto. Qed.

(** Before the period is reached the interval does not fire. *)
Lemma wait_quiet (n : nat) (s : Saver B) :
  sinceArm s + n < AUTOSAVE_MS ->
  activeId (wait latency n s) = activeId s /\ buffer (wait latency n s) = buffer s /\
  clock (wait latency n s) = clock s + n /\ sinceArm (wait latency n s) = sinceArm s + n /\
  saves (wait latency n s) = saves s.
Proof.
  revert s; induction n as [|n IH]; intros s Hn.
  - cbn [wait]. rewrite !Nat.add_0_r. auto.
  - cbn [wait]. destruct (tick_spec s) as (A & Bu & C & _ & H2).
    destruct (H2 ltac:(lia)) as [K Sv].
    destruct (IH (tick latency s)) as (A' & B' & C' & K' & Sv'); [rewrite K; lia|].
    rewrite A', B', C', K', Sv', A, Bu, C, K, Sv. repeat split; lia.
Qed.

(** With nothing in flight and the period not reached, the state only
    moves its clock and phase. *)
Lemma wait_idle (n : nat) (s : Saver B) :
  sinceArm s + n < AUTOSAVE_MS -> pending s = [] ->
  wait latency n s =
    mkSaver (activeId s) (buffer s) (lastSaved s) (clock s + n) (sinceArm s + n) (saves s) [].
Proof.
  revert s; induction n as [|n IH]; intros s Hn Hp.
  - destruct s; cbn in *. subst. rewrite !Nat.add_0_r. reflexivity.
  - cbn [wait]. unfold tick. rewrite settle_nil by exact Hp. cbn [sinceArm].
    destruct (Nat.eqb_spec (S (sinceArm s)) AUTOSAVE_MS) as [E|_]; [lia|].
    rewrite IH by (cbn [sinceArm pending]; first [lia|exact Hp]). cbn. f_equal; lia.
Qed.

(** With no active id, time passes without a save. *)
Lemma wait_inactive (n : nat) (s : Saver B) :
  activeId s = "" -> saves (wait latency n s) = saves s /\ activeId (wait latency n s) = "".
Proof.
  revert s; induction n as [|n IH]; intros s Hs; cbn [wait]; [auto|].
  destruct (tick_spec s) as (A & _ & _ & H1 & H2).
  assert (Sv : saves (tick latency s) = saves s).
  { destruct (Nat.eq_dec (S (sinceArm s)) AUTOSAVE_MS) as [E|E].
    - rewrite (proj2 (H1 E)), Hs. apply app_nil_r.
    - exact (proj2 (H2 E)). }
  destruct (IH (tick latency s)) as [H3 H4]; [congruence|]. rewrite H3, Sv. auto.
Qed.

End Fields.

Lemma typingEvery4s_state (latency : nat -> option nat) (k : nat) :
  run String.eqb latency (typingEvery4s k) (mkSaver "d1" "" 0 0 0 [] [])
  = mkSaver "d1" (match k with 0 => "" | _ => if Nat.even k then "ab" else "a" end)
            0 (4000 * k) 0 [] [].
Proof.
  induction k as [|k IH]; [reflexivity|].
  cbn [typingEvery4s].
  assert (Hrun : forall l1 l2 (s : Saver string),
             run String.eqb latency (l1 ++ l2) s
             = run String.eqb latency l2 (run String.eqb latency l1 s)).
  { induction l1 as [|e l1 IHl]; intros; simpl; auto. }
  rewrite Hrun, IH. cbn [run step].
  rewrite wait_idle by (cbn [sinceArm pending]; first [reflexivity|unfold AUTOSAVE_MS; lia]).
  cbn [activeId buffer lastSaved clock sinceArm saves].
  unfold edit. cbn [buffer activeId lastSaved clock saves].
  replace (4000 * k + 4000) with (4000 * S k) by lia.
  replace (0 + 4000) with 4000 by reflexivity.
  destruct k as [|k]; [reflexivity|].
  rewrite (Nat.even_succ (S k)). rewrite <- Nat.negb_even.
  destruct (Nat.even (S k)); reflexivity.
Qed.

(** ** C6 *)

(** C6 (counterexample): a document stays active and its buffer is edited
    every four seconds. Each edit restarts the interval, so after twenty
    seconds nothing has been saved: the timer does not fire on a fixed
    five-second period. *)
Lemma autosave_typing_never_fires :
  let s := run String.eqb (fun _ => Some 50) (typingEvery4s 5) (mkSaver "d1" "" 0 0 0 [] []) in
  activeId s = "d1" /\ buffer s = "a" /\ clock s = 4000 * 5 /\ saves s = [].
Proof.
  cbv zeta. rewrite typingEvery4s_state. simpl. repeat split.
Qed.

(** C6: the interval is restarted whenever the active id or the buffer
    changes. Once [AUTOSAVE_MS] pass with neither changing, it fires:
    before that nothing is saved; with an active id the whole current
    buffer is saved for that id; with no active id no save is ever made.
    [lastSaved] is stamped when the save resolves, at that time ([d] ms
    after the fire for a save that takes [d] ms), and a rejected save
    leaves it as it was. Leaving the field saves at once, whatever the
    timer's phase, and stamps in the same way. *)
Theorem autosave_fires_after_quiet_period {B : Type} (beqB : B -> B -> bool)
    (latency : nat -> option nat) (s : Saver B) :
  sinceArm s < AUTOSAVE_MS ->
  (forall n, n < AUTOSAVE_MS - sinceArm s -> saves (wait latency n s) = saves s) /\
  (activeId s <> "" ->
   let s' := wait latency (AUTOSAVE_MS - sinceArm s) s in
   saves s' = saves s ++ [(activeId s, buffer s)] /\
   clock s' = clock s + (AUTOSAVE_MS - sinceArm s) /\ sinceArm s' = 0 /\
   (forall d, latency (List.length (saves s)) = Some d ->
    lastSaved (wait latency d s') = clock s' + d) /\
   (latency (List.length (saves s)) = None -> pending s = [] ->
    forall n, n < AUTOSAVE_MS -> lastSaved (wait latency n s') = lastSaved s)) /\
  (activeId s = "" -> forall n, saves (wait latency n s) = saves s) /\
  (activeId s <> "" ->
   saves (blur latency s) = saves s ++ [(activeId s, buffer s)] /\
   sinceArm (blur latency s) = sinceArm s /\
   (forall d, latency (List.length (saves s)) = Some d ->
    lastSaved (wait latency d (blur latency s)) = clock s + d)) /\
  (forall v, beqB v (buffer s) = false ->
   buffer (edit beqB v s) = v /\ sinceArm (edit beqB v s) = 0 /\ saves (edit beqB v s) = saves s) /\
  (forall id, String.eqb id (activeId s) = false ->
   activeId (select id s) = id /\ sinceArm (select id s) = 0).
Proof.
  intros Hlt. split; [|split; [|split; [|split; [|split]]]].
  - intros n Hn. apply (wait_quiet latency n s). lia.
  - intros Hid. cbv zeta.
    replace (AUTOSAVE_MS - sinceArm s) with ((AUTOSAVE_MS - sinceArm s - 1) + 1) by lia.
    rewrite wait_add. cbn [wait].
    destruct (wait_quiet latency (AUTOSAVE_MS - sinceArm s - 1) s) as (A & Bu & C & K & Sv);
      [lia|].
    assert (P0 : pending s = [] ->
                 pending (wait latency (AUTOSAVE_MS - sinceArm s - 1) s) = [] /\
                 lastSaved (wait latency (AUTOSAVE_MS - sinceArm s - 1) s) = lastSaved s).
    { intros Hp. rewrite wait_idle by (first [lia|exact Hp]). cbn. split; reflexivity. }
    revert A Bu C K Sv P0. generalize (wait latency (AUTOSAVE_MS - sinceArm s - 1) s).
    intros s0 A Bu C K Sv P0.
    destruct (tick_spec latency s0) as (A1 & B1 & C1 & H1 & _).
    destruct (H1 ltac:(lia)) as [K1 Sv1].
    rewrite C1, K1, Sv1, A, Bu, Sv, C. apply String.eqb_neq in Hid. rewrite Hid.
    split; [reflexivity|split; [lia|split; [reflexivity|split]]].
    + intros d Hd. apply wait_stamped; [|rewrite C1, C; lia].
      unfold tick.
      pose proof (settle_fields (mkSaver (activeId s0) (buffer s0) (lastSaved s0) (S (clock s0))
                    (S (sinceArm s0)) (saves s0) (pending s0))) as (A2 & B2 & C2 & K2 & Sv2).
      cbn [activeId buffer clock sinceArm saves] in A2, B2, C2, K2, Sv2.
      revert A2 B2 C2 K2 Sv2.
      generalize (settle (mkSaver (activeId s0) (buffer s0) (lastSaved s0) (S (clock s0))
                    (S (sinceArm s0)) (saves s0) (pending s0))).
      intros s1 A2 B2 C2 K2 Sv2. rewrite K2.
      replace (Nat.eqb (S (sinceArm s0)) AUTOSAVE_MS) with true by (symmetry; apply Nat.eqb_eq; lia).
      unfold fire. cbn [activeId]. rewrite A2, A, Hid.
      replace (S (clock s + (AUTOSAVE_MS - sinceArm s - 1)) + d) with (clock s1 + d)
        by (rewrite C2, C; lia).
      apply (flush_registers latency (mkSaver (activeId s) (buffer s1) (lastSaved s1) (clock s1) 0
                                      (saves s1) (pending s1)) d).
      cbn [saves]. rewrite Sv2, Sv. exact Hd.
    + intros Hd Hp n Hn. destruct (P0 Hp) as [Pp Pl].
      assert (T : tick latency s0 =
                  mkSaver (activeId s0) (buffer s0) (lastSaved s0) (S (clock s0)) 0
                          (saves s0 ++ [(activeId s0, buffer s0)]) []).
      { unfold tick. rewrite settle_nil by exact Pp. cbn [sinceArm].
        replace (Nat.eqb (S (sinceArm s0)) AUTOSAVE_MS) with true
          by (symmetry; apply Nat.eqb_eq; lia).
        unfold fire. cbn [activeId]. rewrite A, Hid. unfold flush. cbn [saves].
        rewrite Sv, Hd. cbn [activeId buffer lastSaved clock sinceArm saves pending].
        rewrite Pp. reflexivity. }
      rewrite T, wait_idle by (cbn [sinceArm pending]; first [lia|reflexivity]).
      cbn [lastSaved]. exact Pl.
  - intros Hid n. apply wait_inactive, Hid.
  - intros Hid. unfold blur.
    destruct (fire_fields latency s) as (_ & _ & C & K & Sv). rewrite K, Sv.
    apply String.eqb_neq in Hid. rewrite Hid. split; [reflexivity|split; [reflexivity|]].
    intros d Hd. apply wait_stamped; [|rewrite C; reflexivity].
    unfold fire. rewrite Hid. now apply flush_registers.
  - intros v Hv. unfold edit. rewrite Hv. simpl. repeat split.
  - intros id Hid. unfold select. rewrite Hid. simpl. split; reflexivity.
Qed.

Lemma autosave_fires_after_quiet_period_witness :
  let latency := fun _ : nat => Some 120 in
  let s := mkSaver "d1" "hello" 0 0 0 [] [] in
  saves (wait latency AUTOSAVE_MS s) = [("d1", "hello")] /\
  lastSaved (wait latency 120 (wait latency AUTOSAVE_MS s)) = AUTOSAVE_MS + 120.
Proof.
  cbv zeta.
  destruct (autosave_fires_after_quiet_period String.eqb (fun _ : nat => Some 120)
              (mkSaver "d1" "hello" 0 0 0 [] [])
              ltac:(cbn [sinceArm]; unfold AUTOSAVE_MS; lia)) as [_ [H _]].
  destruct (H ltac:(discriminate)) as (H1 & H2 & _ & H4 & _).
  cbn [sinceArm clock saves app] in H1, H2, H4. rewrite Nat.sub_0_r in H1, H2, H4.
  split; [exact H1|]. rewrite (H4 120 eq_refl), H2. reflexivity.
Defined.

End AutosaveFacts.

Module TreeExtras.
Import Tree TreeFacts BucketFacts ReachFacts PurityFacts.

Lemma bucketPush_not_OOF {A : Type} (m : JsRecord A) k x : bucketPush m k x <> OutOfFuel.
Proof. unfold bucketPush. destruct (isProtoName k); [|destruct (ownGet m k)]; discriminate. Qed.

Lemma bucketBy_not_OOF {A : Type} (ref : A -> option string) xs m : bucketBy ref xs m <> OutOfFuel.
Proof.
  revert m; induction xs as [|x xs IH]; intros m; simpl; [discriminate|].
  pose proof (bucketPush_not_OOF m (keyOf (ref x)) x) as H.
  destruct (bucketPush m (keyOf (ref x)) x); simpl; [apply IH|discriminate|contradiction].
Qed.

Lemma lookupOrEmpty_not_OOF {A : Type} (m : JsRecord A) k : lookupOrEmpty m k <> OutOfFuel.
Proof. unfold lookupOrEmpty. destruct (isProtoName k); [|destruct (ownGet m k)]; discriminate. Qed.

Lemma bucketBy_proto_throw {A : Type} (ref : A -> option string) xs m :
  (exists x, In x xs /\ isProtoName (keyOf (ref x)) = true) ->
  exists msg, bucketBy ref xs m = Throw msg.
Proof.
  revert m; induction xs as [|x xs IH]; intros m [y [Hy Hp]]; [destruct Hy|].
  simpl. destruct Hy as [<-|Hy].
  - unfold bucketPush at 1. rewrite Hp. simpl. eexists; reflexivity.
  - pose proof (bucketPush_not_OOF m (keyOf (ref x)) x) as H.
    destruct (bucketPush m (keyOf (ref x)) x) as [m'|e|]; simpl;
      [apply IH; exists y; auto|eexists; reflexivity|contradiction].
Qed.

Lemma mapRes_Ok_all {A B : Type} (h : A -> Res B) l l' :
  mapRes h l = Ok l' -> forall x, In x l -> exists y, In y l' /\ h x = Ok y.
Proof.
  revert l'; induction l as [|x l IH]; intros l' H z Hz; [destruct Hz|]. simpl in H.
  destruct (h x) as [y|e|] eqn:Ex; simpl in H; try discriminate.
  destruct (mapRes h l) as [ys|e|] eqn:Er; simpl in H; try discriminate.
  injection H as <-. destruct Hz as [<-|Hz].
  - exists y; split; [left; reflexivity|exact Ex].
  - destruct (IH ys eq_refl z Hz) as [w [Hw Ew]]. exists w; split; [right; exact Hw|exact Ew].
Qed.

Lemma mapRes_not_OOF {A B : Type} (h : A -> Res B) l :
  (forall x, In x l -> h x <> OutOfFuel) -> mapRes h l <> OutOfFuel.
Proof.
  induction l as [|x l IH]; intros H; simpl; [discriminate|].
  pose proof (H x (or_introl eq_refl)) as Hx.
  destruct (h x); simpl; [|discriminate|contradiction].
  assert (Hr : mapRes h l <> OutOfFuel) by (apply IH; intros; apply H; right; assumption).
  destruct (mapRes h l); simpl; [discriminate|discriminate|contradiction].
Qed.

Section Complete.
Variables (F : list Folder) (D : list Doc) (C : list Character)
          (cbp : JsRecord Folder) (dbf : JsRecord Doc) (cbf : JsRecord Character).
Hypotheses (Hcbp : bucketBy f_parentId F [] = Ok cbp)
           (Hdbf : bucketBy d_folderId D [] = Ok dbf)
           (Hcbf : bucketBy c_folderId C [] = Ok cbf).

(** A folder node shows its folder, the nodes of its sub-folders, and its
    documents and characters. *)
Lemma makeFolderNode_shows n f t :
  makeFolderNode cbp dbf cbf n f = Ok t ->
  In (KFolder, f_id f) (nodeEntries t) /\
  (forall g, In g F -> keyOf (f_parentId g) = f_id f ->
     exists n' t', makeFolderNode cbp dbf cbf n' g = Ok t' /\ incl (nodeEntries t') (nodeEntries t)) /\
  (forall d, In d D -> keyOf (d_folderId d) = f_id f -> In (KDoc, d_id d) (nodeEntries t)) /\
  (forall c, In c C -> keyOf (c_folderId c) = f_id f -> In (KCharacter, c_id c) (nodeEntries t)).
Proof.
  destruct n as [|n]; simpl; intros H; [discriminate|].
  inv_bind H. injection H as <-.
  pose proof (lookupOrEmpty_Ok_proto _ _ _ E) as Hp.
  rewrite (lookupOrEmpty_bucket _ _ _ _ Hcbp Hp) in E. injection E as <-.
  rewrite (lookupOrEmpty_bucket _ _ _ _ Hdbf Hp) in E1. injection E1 as <-.
  rewrite (lookupOrEmpty_bucket _ _ _ _ Hcbf Hp) in E2. injection E2 as <-.
  split; [left; reflexivity|]. split; [|split].
  - intros g Hg Hk.
    assert (Hin : In g (filter (fun x => String.eqb (keyOf (f_parentId x)) (f_id f)) F))
      by (apply filter_In; split; [exact Hg|apply String.eqb_eq; exact Hk]).
    destruct (mapRes_Ok_all _ _ _ E0 g Hin) as [y [Hy Ey]].
    exists n, y. split; [exact Ey|].
    intros e He. right. apply in_flat_map. exists y. split; [apply in_or_app; left; exact Hy|exact He].
  - intros d Hd Hk. right. apply in_flat_map. exists (docNode d). split; [|left; reflexivity].
    apply in_or_app; right; apply in_or_app; left. apply in_map, filter_In.
    split; [exact Hd|apply String.eqb_eq; exact Hk].
  - intros c Hc Hk. right. apply in_flat_map. exists (charNode c). split; [|left; reflexivity].
    apply in_or_app; right; apply in_or_app; right. apply in_map, filter_In.
    split; [exact Hc|apply String.eqb_eq; exact Hk].
Qed.

(** Every reached folder is turned into a node of the root folders. *)
Lemma reached_shown fuel rf rootFolders :
  lookupOrEmpty cbp ROOT_KEY = Ok rf ->
  mapRes (makeFolderNode cbp dbf cbf fuel) rf = Ok rootFolders ->
  forall f, Reach F f -> exists n t, makeFolderNode cbp dbf cbf n f = Ok t /\
                              incl (nodeEntries t) (forestEntries rootFolders).
Proof.
  intros Hrf Hm f HR. induction HR as [f Hf Hk|g f HRg IH Hf Hk].
  - rewrite (lookupOrEmpty_bucket _ _ _ ROOT_KEY Hcbp eq_refl) in Hrf. injection Hrf as <-.
    assert (Hin : In f (filter (fun x => String.eqb (keyOf (f_parentId x)) ROOT_KEY) F))
      by (apply filter_In; split; [exact Hf|apply String.eqb_eq; exact Hk]).
    destruct (mapRes_Ok_all _ _ _ Hm f Hin) as [y [Hy Ey]].
    exists fuel, y. split; [exact Ey|]. intros e He. apply in_flat_map. exists y; auto.
  - destruct IH as [n [t [Et Hinc]]].
    destruct (proj1 (proj2 (makeFolderNode_shows n g t Et)) f Hf Hk) as [n' [t' [Et' Hinc']]].
    exists n', t'. split; [exact Et'|]. intros e He. apply Hinc, Hinc', He.
Qed.

End Complete.

Lemma forestEntries_app L1 L2 e :
  In e (forestEntries (L1 ++ L2)) <-> In e (forestEntries L1) \/ In e (forestEntries L2).
Proof. unfold forestEntries. rewrite flat_map_app, in_app_iff. tauto. Qed.

(** ** Rows that crash [buildTree] *)

(** X1: a folder, document or character whose parent or folder reference
    is a property name of [Object.prototype] (["constructor"],
    ["toString"], ...) makes [buildTree] raise a [TypeError] in its
    bucketing loops, whatever the other rows are. *)
Theorem buildTree_proto_reference_throws lc fuel F D C :
  (exists f, In f F /\ isProtoName (keyOf (f_parentId f)) = true) \/
  (exists d, In d D /\ isProtoName (keyOf (d_folderId d)) = true) \/
  (exists c, In c C /\ isProtoName (keyOf (c_folderId c)) = true) ->
  exists msg, buildTree lc fuel F D C = Throw msg.
Proof.
  unfold buildTree. intros [HF|[HD|HC]].
  - destruct (bucketBy_proto_throw f_parentId F [] HF) as [m Hm]. rewrite Hm. eexists; reflexivity.
  - pose proof (bucketBy_not_OOF f_parentId F []) as H1.
    destruct (bucketBy f_parentId F []); simpl; [|eexists; reflexivity|contradiction].
    destruct (bucketBy_proto_throw d_folderId D [] HD) as [m Hm]. rewrite Hm. eexists; reflexivity.
  - pose proof (bucketBy_not_OOF f_parentId F []) as H1.
    pose proof (bucketBy_not_OOF d_folderId D []) as H2.
    destruct (bucketBy f_parentId F []); simpl; [|eexists; reflexivity|contradiction].
    destruct (bucketBy d_folderId D []); simpl; [|eexists; reflexivity|contradiction].
    destruct (bucketBy_proto_throw c_folderId C [] HC) as [m Hm]. rewrite Hm. eexists; reflexivity.
Qed.

Lemma buildTree_proto_reference_throws_witness :
  buildTree codeUnitCompare 3 [mkFolder "f1" "Act I" None]
    [mkDoc "d1" "Scene" (Some "constructor")] []
  = Throw "TypeError: m[k].push is not a function".
Proof.
  destruct (buildTree_proto_reference_throws codeUnitCompare 3 [mkFolder "f1" "Act I" None]
              [mkDoc "d1" "Scene" (Some "constructor")] []
              (or_intror (or_introl (ex_intro _ (mkDoc "d1" "Scene" (Some "constructor"))
                 (conj (or_introl eq_refl) eq_refl))))) as [m Hm].
  rewrite Hm. vm_compute in Hm. symmetry; exact Hm.
Defined.

(** X2: a folder that is reached from the root and whose id is a property
    name of [Object.prototype] keeps [buildTree] from ever returning a
    forest: looking up its children raises a [TypeError]. *)
Theorem buildTree_proto_folder_id_no_forest lc fuel F D C f :
  Reach F f -> isProtoName (f_id f) = true ->
  forall forest, buildTree lc fuel F D C <> Ok forest.
Proof.
  intros HR Hp forest H. unfold buildTree in H. inv_bind H.
  destruct (reached_shown F D C _ _ _ E E0 E1 fuel _ _ E2 E3 f HR) as [n [t [Et _]]].
  destruct n as [|n]; simpl in Et; [discriminate|]. inv_bind Et.
  rewrite (lookupOrEmpty_Ok_proto _ _ _ E6) in Hp. discriminate.
Qed.

Lemma buildTree_proto_folder_id_no_forest_witness :
  buildTree codeUnitCompare 5 [mkFolder "toString" "Notes" None] [] [] <> Ok [].
Proof.
  apply (buildTree_proto_folder_id_no_forest codeUnitCompare 5 [mkFolder "toString" "Notes" None] [] []
           (mkFolder "toString" "Notes" None)).
  - apply reach_root; [left; reflexivity|reflexivity].
  - reflexivity.
Defined.

(** ** What the forest shows *)

(** X3: when [buildTree] returns a forest, the forest shows exactly the
    folders reached from the root through [parentId] links, and the
    documents and characters whose folder is the root or a reached folder;
    each appears wherever it is reached. *)
Theorem buildTree_shows_exactly_reachable lc fuel F D C forest :
  buildTree lc fuel F D C = Ok forest ->
  forall e, In e (forestEntries forest) <-> entryOk F D C e.
Proof.
  intros H e. split; [apply (buildTree_entries lc fuel F D C forest H)|].
  unfold buildTree in H. inv_bind H. injection H as <-.
  intros Hok. apply sorted_forest_entries. rewrite !forestEntries_app.
  assert (Hr : isProtoName ROOT_KEY = false) by reflexivity.
  pose proof E4 as E4'. pose proof E5 as E5'.
  rewrite (lookupOrEmpty_bucket _ _ _ _ E0 Hr) in E4'. injection E4' as <-.
  rewrite (lookupOrEmpty_bucket _ _ _ _ E1 Hr) in E5'. injection E5' as <-.
  pose proof (reached_shown F D C _ _ _ E E0 E1 fuel _ _ E2 E3) as Hreach.
  destruct e as [[] i]; simpl in Hok.
  - destruct Hok as [g [Hg <-]]. left.
    destruct (Hreach g Hg) as [n [t [Et Hinc]]].
    apply Hinc, (proj1 (makeFolderNode_shows F D C _ _ _ E E0 E1 n g t Et)).
  - destruct Hok as [d [Hd [<- [Hroot|[g [Hg Hk]]]]]].
    + right; left. unfold forestEntries. apply in_flat_map. exists (docNode d).
      split; [|left; reflexivity]. apply in_map, filter_In.
      split; [exact Hd|apply String.eqb_eq; exact Hroot].
    + left. destruct (Hreach g Hg) as [n [t [Et Hinc]]].
      apply Hinc, (proj1 (proj2 (proj2 (makeFolderNode_shows F D C _ _ _ E E0 E1 n g t Et))) d Hd Hk).
  - destruct Hok as [c [Hc [<- [Hroot|[g [Hg Hk]]]]]].
    + right; right. unfold forestEntries. apply in_flat_map. exists (charNode c).
      split; [|left; reflexivity]. apply in_map, filter_In.
      split; [exact Hc|apply String.eqb_eq; exact Hroot].
    + left. destruct (Hreach g Hg) as [n [t [Et Hinc]]].
      apply Hinc, (proj2 (proj2 (proj2 (makeFolderNode_shows F D C _ _ _ E E0 E1 n g t Et))) c Hc Hk).
Qed.

Lemma buildTree_shows_exactly_reachable_witness :
  In (KDoc, "d1") (forestEntries
    (match buildTree codeUnitCompare 3 [mkFolder "f1" "Act I" None; mkFolder "f2" "Lost" (Some "gone")]
             [mkDoc "d1" "Scene" (Some "f1")] [] with Ok fo => fo | _ => [] end)).
Proof.
  apply (proj2 (buildTree_shows_exactly_reachable codeUnitCompare 3
           [mkFolder "f1" "Act I" None; mkFolder "f2" "Lost" (Some "gone")]
           [mkDoc "d1" "Scene" (Some "f1")] [] _ eq_refl (KDoc, "d1"))).
  exists (mkDoc "d1" "Scene" (Some "f1")). split; [left; reflexivity|]. split; [reflexivity|].
  right. exists (mkFolder "f1" "Act I" None). split; [|reflexivity].
  apply reach_root; [left; reflexivity|reflexivity].
Defined.

(** ** Termination *)

Lemma NoDup_snoc {A : Type} (l : list A) x : NoDup l -> ~ In x l -> NoDup (l ++ [x]).
Proof.
  induction l as [|a l IH]; intros Hn Hx; simpl; [constructor; [intros []|constructor]|].
  inversion Hn as [|? ? Ha Hl]; subst. constructor.
  - rewrite in_app_iff. intros [H|[H|[]]]; [contradiction|subst; apply Hx; left; reflexivity].
  - apply IH; [exact Hl|intros H; apply Hx; right; exact H].
Qed.

Lemma NoDup_snoc_notin {A : Type} (l : list A) x : NoDup (l ++ [x]) -> ~ In x l.
Proof.
  intros H Hin. apply NoDup_remove_2 in H. apply H. rewrite app_nil_r. exact Hin.
Qed.

Section Termination.
Variables (F : list Folder).
Hypotheses (HuF : NoDup (map f_id F)) (Hroot : forall g, In g F -> f_id g <> ROOT_KEY).

Lemma PathInv_root f : In f F -> keyOf (f_parentId f) = ROOT_KEY -> PathInv F [] f.
Proof.
  intros Hf Hk. split; [constructor; [intros []|constructor]|]. split.
  - intros x [<-|[]]; exact Hf.
  - intros x [<-|[]]. left; exact Hk.
Qed.

Lemma PathInv_child P f g :
  PathInv F P f -> In g F -> keyOf (f_parentId g) = f_id f -> PathInv F (P ++ [f]) g.
Proof.
  intros [Hnd [Hinc Hpar]] Hg Hk.
  assert (HfF : In f F) by (apply Hinc, in_or_app; right; left; reflexivity).
  assert (HfP : ~ In f P) by (apply NoDup_snoc_notin, Hnd).
  assert (Hgn : ~ In g (P ++ [f])).
  { intros Hin. destruct (Hpar g Hin) as [Hr|[y [Hy Hyk]]].
    - apply (Hroot f HfF). congruence.
    - assert (Hyf : y = f).
      { apply (NoDup_map_inj f_id F y f HuF); [apply Hinc, in_or_app; left; exact Hy|exact HfF|congruence]. }
      subst y. contradiction. }
  split; [apply NoDup_snoc; assumption|]. split.
  - intros x Hx. apply in_app_iff in Hx as [Hx|[<-|[]]]; [apply Hinc, Hx|exact Hg].
  - intros x Hx. apply in_app_iff in Hx as [Hx|[<-|[]]].
    + destruct (Hpar x Hx) as [Hr|[y [Hy Hyk]]]; [left; exact Hr|].
      right. exists y. split; [apply in_or_app; left; exact Hy|exact Hyk].
    + right. exists f. split; [apply in_or_app; right; left; reflexivity|exact Hk].
Qed.

Lemma PathInv_length P f : PathInv F P f -> S (List.length P) <= List.length F.
Proof.
  intros [Hnd [Hinc _]]. pose proof (NoDup_incl_length Hnd Hinc) as H.
  rewrite length_app in H. simpl in H. lia.
Qed.

Lemma makeFolderNode_terminates cbp dbf cbf :
  bucketBy f_parentId F [] = Ok cbp ->
  forall m P f, PathInv F P f -> List.length F <= List.length P + m ->
  makeFolderNode cbp dbf cbf m f <> OutOfFuel.
Proof.
  intros Hb m. induction m as [|m IH]; intros P f Hinv Hlen.
  - pose proof (PathInv_length P f Hinv). lia.
  - simpl. destruct (isProtoName (f_id f)) eqn:Hp.
    + unfold lookupOrEmpty at 1. rewrite Hp. simpl. discriminate.
    + rewrite (lookupOrEmpty_bucket _ _ _ _ Hb Hp). simpl.
      assert (Hm : mapRes (makeFolderNode cbp dbf cbf m)
                     (filter (fun x => String.eqb (keyOf (f_parentId x)) (f_id f)) F) <> OutOfFuel).
      { apply mapRes_not_OOF. intros g Hg. apply filter_In in Hg as [HgF Hgk].
        apply String.eqb_eq in Hgk.
        apply (IH (P ++ [f])); [apply PathInv_child; assumption|rewrite length_app; simpl; lia]. }
      destruct (mapRes _ _); simpl; [|discriminate|contradiction].
      pose proof (lookupOrEmpty_not_OOF dbf (f_id f)).
      destruct (lookupOrEmpty dbf (f_id f)); simpl; [|discriminate|contradiction].
      pose proof (lookupOrEmpty_not_OOF cbf (f_id f)).
      destruct (lookupOrEmpty cbf (f_id f)); simpl; [discriminate|discriminate|contradiction].
Qed.

End Termination.

(** X4: when folder ids are unique and none is ["__ROOT__"], [buildTree]
    finishes, with a forest or a [TypeError], as soon as the recursion depth
    allowed is the number of folders: the recursion never passes twice
    through the same folder on a path. *)
Theorem buildTree_terminates_unique_ids lc fuel F D C :
  NoDup (map f_id F) -> (forall f, In f F -> f_id f <> ROOT_KEY) ->
  List.length F <= fuel -> buildTree lc fuel F D C <> OutOfFuel.
Proof.
  intros HuF Hroot Hfuel. unfold buildTree.
  pose proof (bucketBy_not_OOF f_parentId F []) as H1.
  destruct (bucketBy f_parentId F []) as [cbp| |] eqn:Hb; simpl; [|discriminate|contradiction].
  pose proof (bucketBy_not_OOF d_folderId D []) as H2.
  destruct (bucketBy d_folderId D []) as [dbf| |]; simpl; [|discriminate|contradiction].
  pose proof (bucketBy_not_OOF c_folderId C []) as H3.
  destruct (bucketBy c_folderId C []) as [cbf| |]; simpl; [|discriminate|contradiction].
  rewrite (lookupOrEmpty_bucket _ _ _ ROOT_KEY Hb eq_refl). simpl.
  assert (Hm : mapRes (makeFolderNode cbp dbf cbf fuel)
                 (filter (fun x => String.eqb (keyOf (f_parentId x)) ROOT_KEY) F) <> OutOfFuel).
  { apply mapRes_not_OOF. intros g Hg. apply filter_In in Hg as [HgF Hgk].
    apply String.eqb_eq in Hgk.
    apply (makeFolderNode_terminates F HuF Hroot cbp dbf cbf Hb fuel []);
      [apply PathInv_root; assumption|simpl; lia]. }
  destruct (mapRes _ _); simpl; [|discriminate|contradiction].
  pose proof (lookupOrEmpty_not_OOF dbf ROOT_KEY).
  destruct (lookupOrEmpty dbf ROOT_KEY); simpl; [|discriminate|contradiction].
  pose proof (lookupOrEmpty_not_OOF cbf ROOT_KEY).
  destruct (lookupOrEmpty cbf ROOT_KEY); simpl; [discriminate|discriminate|contradiction].
Qed.

Lemma buildTree_terminates_unique_ids_witness :
  buildTree codeUnitCompare 3
    [mkFolder "c" "Child" (Some "b"); mkFolder "b" "Mid" (Some "a"); mkFolder "a" "Top" None]
    [mkDoc "d" "Doc" (Some "c")] [] <> OutOfFuel.
Proof.
  apply buildTree_terminates_unique_ids.
  - repeat constructor; simpl; intuition discriminate.
  - intros f Hf. simpl in Hf. intuition (subst; discriminate).
  - simpl. lia.
Defined.

End TreeExtras.

(** ** Expansion, rendered rows and context menu *)
Module ViewFacts.
Import Tree TreeUi TreeView.

Lemma isOpen_ownSet e id v k :
  isOpen (ownSet e id v) k = if String.eqb k id then v else isOpen e k.
Proof.
  unfold isOpen. rewrite BucketFacts.ownGet_ownSet. now destruct (String.eqb k id).
Qed.

(** Induction on trees with the hypothesis for every child of a folder. *)
Lemma TreeNode_deep_ind (P : TreeNode -> Prop)
  (HF : forall id name cs, Forall P cs -> P (FolderNode id name cs))
  (HD : forall id t, P (DocNode id t))
  (HC : forall id nm, P (CharNode id nm)) : forall n, P n.
Proof.
  refine (fix go n := match n with
                      | FolderNode id name cs => HF id name cs _
                      | DocNode id t => HD id t
                      | CharNode id nm => HC id nm
                      end).
  induction cs as [|x r IHr]; constructor; [exact (go x) | exact IHr].
Qed.


Lemma rowsOf_entries_in e cd cc :
  forall n d r, In r (rowsOf e cd cc d n) -> In (rowEntry r) (nodeEntries n).
Proof.
  induction n as [id name cs IH|id t|id nm] using TreeNode_deep_ind; intros d r Hr; simpl in Hr.
  - destruct Hr as [<-|Hr]; [now left|right].
    destruct (isOpen e id); [|contradiction].
    apply in_flat_map in Hr as (c & Hc & Hr).
    rewrite Forall_forall in IH.
    apply in_flat_map. exists c. split; [exact Hc|exact (IH c Hc _ _ Hr)].
  - destruct Hr as [<-|[]]; now left.
  - destruct Hr as [<-|[]]; now left.
Qed.

Lemma rowsOf_all_open e cd cc :
  forall n d, (forall id, In (KFolder, id) (nodeEntries n) -> isOpen e id = true) ->
  map rowEntry (rowsOf e cd cc d n) = nodeEntries n.
Proof.
  induction n as [id name cs IH|id t|id nm] using TreeNode_deep_ind; intros d H; simpl; auto.
  rewrite (H id) by (now left). f_equal.
  assert (Hc : forall id', In (KFolder, id') (flat_map nodeEntries cs) -> isOpen e id' = true)
    by (intros id' Hi; apply H; now right).
  clear H. induction IH as [|c r Hc1 _ IHr]; [reflexivity|].
  simpl in *. rewrite map_app, Hc1, IHr; [reflexivity| |];
    intros id' Hi; apply Hc; apply in_or_app; auto.
Qed.

(** ** X6 *)
(** The rows [TreeList] renders always belong to the forest it is given.
    With every folder of the forest open they are the forest's entries in
    pre-order (the order of [forestEntries]); with every folder closed they
    are its top-level nodes. *)
Theorem treeRows_shape e cd cc forest :
  (forall r, In r (treeRows e cd cc forest) -> In (rowEntry r) (forestEntries forest)) /\
  ((forall id, In (KFolder, id) (forestEntries forest) -> isOpen e id = true) ->
   map rowEntry (treeRows e cd cc forest) = forestEntries forest) /\
  ((forall id, In (KFolder, id) (forestEntries forest) -> isOpen e id = false) ->
   map rowEntry (treeRows e cd cc forest) = map (fun n => (kindOf n, nodeId n)) forest /\
   Forall (fun r => r_depth r = 0) (treeRows e cd cc forest)).
Proof.
  unfold treeRows, forestEntries. split; [|split; [|intros H; split]].
  - intros r Hr. apply in_flat_map in Hr as (n & Hn & Hr).
    apply in_flat_map. exists n. split; [exact Hn|exact (rowsOf_entries_in _ _ _ _ _ _ Hr)].
  - intros H. induction forest as [|n r IHr]; [reflexivity|].
    simpl in *. rewrite map_app, rowsOf_all_open, IHr; [reflexivity| |];
      intros id Hi; apply H; apply in_or_app; auto.
  - induction forest as [|n r IHr]; [reflexivity|].
    simpl in *. rewrite map_app, IHr by (intros id Hi; apply H; apply in_or_app; auto).
    destruct n as [id name cs|id t|id nm]; simpl; [|reflexivity|reflexivity].
    rewrite (H id) by (now left). reflexivity.
  - induction forest as [|n r IHr]; [constructor|].
    simpl in *. apply Forall_app. split.
    + destruct n as [id name cs|id t|id nm]; simpl.
      * rewrite (H id) by (now left). repeat constructor.
      * repeat constructor.
      * repeat constructor.
    + apply IHr. intros id Hi; apply H; apply in_or_app; auto.
Qed.

Lemma treeRows_shape_witness :
  map rowEntry (treeRows [("f", true)] "d" "" [FolderNode "f" "F" [DocNode "d" "D"]])
  = forestEntries [FolderNode "f" "F" [DocNode "d" "D"]].
Proof.
  apply (proj1 (proj2 (treeRows_shape [("f", true)] "d" "" [FolderNode "f" "F" [DocNode "d" "D"]]))).
  intros id Hi. simpl in Hi. destruct Hi as [Hi|[Hi|[]]]; inversion Hi; reflexivity.
Defined.

(** *** Calls of the menu's handlers *)

Lemma spares_ret {A} (a : A) : sparesFolders (ret a).
Proof. intros s. exists []. now rewrite app_nil_r. Qed.

Lemma spares_get : sparesFolders get.
Proof. intros s. exists []. now rewrite app_nil_r. Qed.

Lemma spares_modify f : (forall s, calls (f s) = calls s) -> sparesFolders (modify f).
Proof. intros Hf s. exists []. simpl. now rewrite Hf, app_nil_r. Qed.

Lemma spares_invoke {A} c (r : option A) : notFolderDelete c = true -> sparesFolders (invoke c r).
Proof. intros Hc s. exists [c]. destruct r; simpl; now rewrite Hc. Qed.

Lemma spares_bind {A B} (m : M A) (k : A -> M B) :
  sparesFolders m -> (forall a, sparesFolders (k a)) -> sparesFolders (mbind m k).
Proof.
  intros Hm Hk s. unfold mbind. destruct (Hm s) as (n1 & C1 & F1).
  destruct (m s) as [[a|] s1]; simpl in *.
  - destruct (Hk a s1) as (n2 & C2 & F2). exists (n1 ++ n2).
    rewrite C2, C1, app_assoc, forallb_app, F1, F2. auto.
  - exists n1. auto.
Qed.

Lemma spares_tryCatch m h : sparesFolders m -> sparesFolders h -> sparesFolders (tryCatch m h).
Proof.
  intros Hm Hh s. unfold tryCatch. destruct (Hm s) as (n1 & C1 & F1).
  destruct (m s) as [[a|] s1] eqn:Em; simpl in *.
  - exists n1. auto.
  - destruct (Hh s1) as (n2 & C2 & F2). exists (n1 ++ n2).
    rewrite C2, C1, app_assoc, forallb_app, F1, F2. auto.
Qed.

Lemma spares_voidM m : sparesFolders m -> sparesFolders (voidM m).
Proof. intros Hm s. exact (Hm s). Qed.

Ltac spares :=
  repeat match goal with
  | |- sparesFolders (mbind _ _) => apply spares_bind; [|intros ?]
  | |- sparesFolders (tryCatch _ _) => apply spares_tryCatch
  | |- sparesFolders (voidM _) => apply spares_voidM
  | |- sparesFolders (ret _) => apply spares_ret
  | |- sparesFolders get => apply spares_get
  | |- sparesFolders (modify _) => apply spares_modify; intros ?
  | |- sparesFolders (alert _) => apply spares_modify; intros ?
  | |- sparesFolders (invoke _ _) => apply spares_invoke; reflexivity
  | |- sparesFolders (if ?b then _ else _) => destruct b
  | |- sparesFolders (match ?x with _ => _ end) => destruct x
  | |- calls (if ?b then _ else _) = _ => destruct b; reflexivity
  | |- calls _ = calls _ => reflexivity
  end.

Lemma spares_refresh E : sparesFolders (refresh E).
Proof. unfold refresh. spares. Qed.

Lemma spares_expandIf p : sparesFolders (expandIf p).
Proof. unfold expandIf. spares. Qed.

Lemma spares_itemAction E t i raw : sparesFolders (itemAction E t i raw).
Proof.
  destruct i; simpl;
    unfold createDoc, createFolder, createCharacterTab, requestDeleteFolder,
      handleDeleteDoc, handleDeleteCharacter;
    spares; first [apply spares_refresh | apply spares_expandIf].
Qed.

(** ** X7 *)
(** A click on any context-menu item closes the menu, always completes, and
    makes no recursive folder delete: it only appends other engine calls.
    "Delete folder..." on a folder with a non-empty id makes no call at all; it
    opens the confirmation dialog for that folder and leaves the selection,
    collections and expansion as they were. *)
Theorem menu_click_never_deletes_folder E t i raw s :
  let s' := snd (clickItem E t i raw s) in
  fst (clickItem E t i raw s) = Done tt /\ menuVisible s' = false /\
  (exists new, calls s' = calls s ++ new /\ forallb notFolderDelete new = true) /\
  (forall id, t = TFolder id -> id <> "" -> i = DeleteFolderItem ->
   confirmOpen s' = true /\ pendingFolderId s' = Some id /\ sameModel s s').
Proof.
  cbn -[itemAction]. split; [reflexivity|]. split; [reflexivity|]. split.
  - exact (spares_itemAction E t i raw s).
  - intros id -> Hid ->. simpl.
    apply String.eqb_neq in Hid. rewrite Hid. simpl.
    repeat split.
Qed.

Lemma menu_click_never_deletes_folder_witness :
  let E := mkEngine (fun _ _ _ => Some tt) (fun _ _ _ => Some "d") (fun _ _ _ => Some "c")
             (fun _ => Some (mkListing [] [] None)) (fun _ _ => Some tt)
             (fun _ _ => Some tt) (fun _ _ => Some tt) in
  let s := mkUi "/p" "" "" [] [] [] [] true false None [] [] in
  confirmOpen (snd (clickItem E (TFolder "f") DeleteFolderItem None s)) = true.
Proof.
  intros E s.
  destruct (proj2 (proj2 (proj2 (menu_click_never_deletes_folder E (TFolder "f") DeleteFolderItem None s)))
              "f" eq_refl ltac:(discriminate) eq_refl) as [H _].
  exact H.
Defined.

End ViewFacts.

(** ** Prompted names, create and delete handlers, confirmation dialog *)
Module UiExtras.
Import Tree TreeUi TreeView.

Definition wsAll (l : jsstr) : Prop := Forall (fun c => isWs c = true) l.

Lemma dropWs_split l : exists a, l = a ++ dropWs l /\ wsAll a.
Proof.
  induction l as [|c r IH]; simpl.
  - exists []. split; [reflexivity|constructor].
  - destruct (isWs c) eqn:Ec.
    + destruct IH as (a & Ha & Wa). exists (c :: a). split; [simpl; congruence|now constructor].
    + exists []. split; [reflexivity|constructor].
Qed.

Lemma dropWs_head l c r : dropWs l = c :: r -> isWs c = false.
Proof.
  induction l as [|x l IH]; simpl; [discriminate|].
  destruct (isWs x) eqn:Ex; [exact IH|]. intros [= <- _]. exact Ex.
Qed.

Lemma dropWs_fixed l : (forall c, hd_error l = Some c -> isWs c = false) -> dropWs l = l.
Proof. destruct l as [|c r]; simpl; [reflexivity|]. intros H. now rewrite (H c eq_refl). Qed.

Lemma dropWs_all l : wsAll l -> dropWs l = [].
Proof. induction 1 as [|c r Hc _ IH]; simpl; [reflexivity|]. now rewrite Hc. Qed.

Lemma trim_spec L :
  exists a b, L = a ++ trim L ++ b /\ wsAll a /\ wsAll b /\
  (forall c, hd_error (trim L) = Some c -> isWs c = false) /\
  (forall c, hd_error (rev (trim L)) = Some c -> isWs c = false).
Proof.
  unfold trim.
  destruct (dropWs_split L) as (a & HL & Wa).
  destruct (dropWs_split (rev (dropWs L))) as (b' & Hb & Wb).
  exists a, (rev b'). repeat split.
  - rewrite HL at 1. f_equal. rewrite <- rev_app_distr, <- Hb, rev_involutive. reflexivity.
  - exact Wa.
  - apply Forall_rev. exact Wb.
  - intros c Hc.
    assert (E : dropWs L = rev (dropWs (rev (dropWs L))) ++ rev b').
    { rewrite <- rev_app_distr, <- Hb, rev_involutive. reflexivity. }
    destruct (rev (dropWs (rev (dropWs L)))) as [|x t]; [discriminate|].
    simpl in Hc. injection Hc as ->. exact (dropWs_head _ _ _ E).
  - rewrite rev_involutive. intros c Hc.
    destruct (dropWs (rev (dropWs L))) as [|x t] eqn:E; [discriminate|].
    simpl in Hc. injection Hc as ->. exact (dropWs_head _ _ _ E).
Qed.

Lemma trim_idem L : trim (trim L) = trim L.
Proof.
  destruct (trim_spec L) as (a & b & _ & _ & _ & H1 & H2).
  unfold trim at 1. rewrite (dropWs_fixed _ H1), (dropWs_fixed _ H2), rev_involutive.
  reflexivity.
Qed.

Lemma trim_nil L : trim L = [] <-> wsAll L.
Proof.
  split.
  - intros H. destruct (trim_spec L) as (a & b & HL & Wa & Wb & _).
    rewrite H in HL. simpl in HL. subst L. apply Forall_app. auto.
  - intros H. unfold trim. rewrite (dropWs_all L H). reflexivity.
Qed.

(** ** X8 *)
(** The prompt's answer is refused exactly when it is empty or all
    whitespace (in the sense of [String.prototype.trim], Unicode spaces and
    line terminators included). An accepted name is the answer with leading
    and trailing whitespace removed and nothing else: it neither starts nor
    ends with whitespace, and prompting with it again gives it back
    unchanged. *)
Theorem promptName_trims (r : jsstr) :
  (promptName (Some r) = None <-> wsAll r) /\
  (forall name, promptName (Some r) = Some name ->
   exists a b, r = a ++ name ++ b /\ wsAll a /\ wsAll b /\
     (forall c, hd_error name = Some c -> isWs c = false) /\
     (forall c, hd_error (rev name) = Some c -> isWs c = false) /\
     promptName (Some name) = Some name).
Proof.
  unfold promptName. split.
  - rewrite <- trim_nil. destruct (trim r); split; congruence.
  - intros name H.
    destruct (trim r) as [|c t] eqn:Ee; [discriminate|]. injection H as <-.
    rewrite <- Ee. destruct (trim_spec r) as (a & b & H).
    exists a, b. intuition.
    rewrite trim_idem, Ee. reflexivity.
Qed.

Lemma promptName_trims_witness :
  let answer := [160%N] ++ units "Chapter 1" ++ [12288%N; 32%N] in
  promptName (Some answer) = Some (units "Chapter 1") /\
  exists a b, answer = a ++ units "Chapter 1" ++ b /\ wsAll a /\ wsAll b.
Proof.
  intros answer. split; [reflexivity|].
  destruct (proj2 (promptName_trims answer) (units "Chapter 1") eq_refl)
    as (a & b & H1 & H2 & H3 & _). exists a, b. auto.
Defined.

Ltac ui_run Hp :=
  unfold createDoc, createFolder, createCharacterTab, refresh, expandIf, invoke, alert,
    modify, mbind, get, ret, tryCatch; simpl; rewrite ?Hp; simpl.

Ltac finish_open :=
  intros k; rewrite ?ViewFacts.isOpen_ownSet; simpl;
  match goal with
  | |- context [String.eqb ?a ?b] => destruct (String.eqb a b); reflexivity
  | |- _ => reflexivity
  end.

(** ** X9 *)
(** When the project is open, the prompt gives a name and the engine
    creates the entity and lists the tree, a create handler makes exactly
    the create call and one listing, installs the new collections and closes
    the menu. A new document or character becomes the only selection; a new
    folder leaves the selection alone. A non-empty target folder id is
    expanded and no other folder's state changes. *)
Theorem create_success_selects_and_expands E fid raw s name L :
  projectPath s <> "" -> promptName raw = Some name -> e_listTree E (projectPath s) = Some L ->
  let p := projectPath s in
  let opened (s' : UiState) := forall k,
    isOpen (expanded s') k = (truthy fid && String.eqb k (keyOf fid)) || isOpen (expanded s) k in
  let refreshed (s' : UiState) :=
    folders s' = l_folders L /\ docs s' = l_docs L /\
    characters s' = (match l_characters L with Some c => c | None => [] end) /\
    menuVisible s' = false /\ alerts s' = alerts s in
  (forall id, e_newDoc E p name fid = Some id ->
   let s' := snd (createDoc E fid raw s) in
   fst (createDoc E fid raw s) = Done tt /\
   calls s' = calls s ++ [NewDoc p name fid; ListTree p] /\
   currentDocId s' = id /\ currentCharId s' = "" /\ refreshed s' /\ opened s') /\
  (forall id, e_newCharacter E p name fid = Some id ->
   let s' := snd (createCharacterTab E fid raw s) in
   fst (createCharacterTab E fid raw s) = Done tt /\
   calls s' = calls s ++ [NewCharacter p name fid; ListTree p] /\
   currentCharId s' = id /\ currentDocId s' = "" /\ refreshed s' /\ opened s') /\
  (e_newFolder E p name fid = Some tt ->
   let s' := snd (createFolder E fid raw s) in
   fst (createFolder E fid raw s) = Done tt /\
   calls s' = calls s ++ [NewFolder p name fid; ListTree p] /\
   currentDocId s' = currentDocId s /\ currentCharId s' = currentCharId s /\
   refreshed s' /\ opened s').
Proof.
  intros Hp Hn HL p opened refreshed. subst p opened refreshed.
  apply String.eqb_neq in Hp.
  split; [|split]; [intros id Hid|intros id Hid|intros Hid];
    ui_run Hp; rewrite Hn; simpl; rewrite Hid; simpl; rewrite Hp, HL; simpl;
    (destruct fid as [f|]; [destruct (String.eqb f "") eqn:Ef|]); simpl; rewrite ?Ef;
    simpl; rewrite <- ?app_assoc;
    (split; [reflexivity|]); (split; [reflexivity|]); (split; [reflexivity|]);
    (split; [reflexivity|]); (split; [repeat split|]); finish_open.
Qed.

Lemma create_success_selects_and_expands_witness :
  let E := mkEngine (fun _ _ _ => Some tt) (fun _ _ _ => Some "d9") (fun _ _ _ => Some "c9")
             (fun _ => Some (mkListing [] [] None)) (fun _ _ => Some tt)
             (fun _ _ => Some tt) (fun _ _ => Some tt) in
  let s := mkUi "/p" "" "c1" [] [] [] [] true false None [] [] in
  currentDocId (snd (createDoc E (Some "f1") (Some (units " Notes ")) s)) = "d9" /\
  isOpen (expanded (snd (createDoc E (Some "f1") (Some (units " Notes ")) s))) "f1" = true.
Proof.
  intros E s.
  destruct (proj1 (create_success_selects_and_expands E (Some "f1") (Some (units " Notes ")) s
                     (units "Notes")
                     (mkListing [] [] None) ltac:(discriminate) eq_refl eq_refl) "d9" eq_refl)
    as (_ & _ & Hd & _ & _ & Ho).
  split; [exact Hd|]. rewrite Ho. reflexivity.
Defined.

(** ** X10 *)
(** With no project open a create handler only shows the "open a project"
    alert. When the engine rejects the create call, the handler rejects with
    that call logged and nothing else changed. When the create succeeds but
    the listing that follows is rejected, the handler rejects after the two
    calls: the collections, selection, expansion and menu stay as they were,
    so the new entity is neither shown nor selected. *)
Theorem create_failures E fid raw s name :
  promptName raw = Some name ->
  let p := projectPath s in
  (p = "" ->
   createDoc E fid raw s = (Done tt, addAlert NO_PROJECT s) /\
   createCharacterTab E fid raw s = (Done tt, addAlert NO_PROJECT s) /\
   createFolder E fid raw s = (Done tt, addAlert NO_PROJECT s)) /\
  (p <> "" ->
   (e_newDoc E p name fid = None ->
    createDoc E fid raw s = (Rejected, logCall (NewDoc p name fid) s)) /\
   (e_newCharacter E p name fid = None ->
    createCharacterTab E fid raw s = (Rejected, logCall (NewCharacter p name fid) s)) /\
   (e_newFolder E p name fid = None ->
    createFolder E fid raw s = (Rejected, logCall (NewFolder p name fid) s)) /\
   (e_listTree E p = None ->
    (forall id, e_newDoc E p name fid = Some id ->
     createDoc E fid raw s = (Rejected, logCall (ListTree p) (logCall (NewDoc p name fid) s))) /\
    (forall id, e_newCharacter E p name fid = Some id ->
     createCharacterTab E fid raw s =
       (Rejected, logCall (ListTree p) (logCall (NewCharacter p name fid) s))) /\
    (e_newFolder E p name fid = Some tt ->
     createFolder E fid raw s = (Rejected, logCall (ListTree p) (logCall (NewFolder p name fid) s))))).
Proof.
  intros Hn p. subst p. split.
  - intros Hp. apply String.eqb_eq in Hp.
    unfold createDoc, createCharacterTab, createFolder, mbind, get. rewrite Hp.
    repeat split.
  - intros Hp. apply String.eqb_neq in Hp.
    split; [|split; [|split; [|intros HL; split; [|split]]]];
      [intros Hc|intros Hc|intros Hc|intros id Hc|intros id Hc|intros Hc];
      ui_run Hp; rewrite Hn; simpl; rewrite Hc; simpl; rewrite ?Hp, ?HL; reflexivity.
Qed.

Lemma create_failures_witness :
  let E := mkEngine (fun _ _ _ => Some tt) (fun _ _ _ => Some "d9") (fun _ _ _ => None)
             (fun _ => None) (fun _ _ => Some tt) (fun _ _ => Some tt) (fun _ _ => Some tt) in
  let s := mkUi "/p" "d1" "" [] [] [] [] false false None [] [] in
  createDoc E None (Some (units "N")) s
  = (Rejected, logCall (ListTree "/p") (logCall (NewDoc "/p" (units "N") None) s)).
Proof.
  intros E s.
  assert (Hp : projectPath s <> "") by discriminate.
  exact (proj1 ((proj2 (proj2 (proj2 ((proj2 (create_failures E None (Some (units "N")) s (units "N") eq_refl))
           Hp)))) eq_refl) "d9" eq_refl).
Defined.

(** ** X11 *)
(** A delete whose engine call succeeds but whose listing afterwards is
    rejected is reported to the user as a failed delete. The delete and the
    listing are the calls made. The selection is cleared as after a
    successful delete, but the collections are not updated, so the tree
    still shows the deleted entity. A rejected recursive folder delete shows
    the same alert and keeps the selection. None of the delete handlers ever
    rejects. *)
Theorem delete_then_failed_listing E s id :
  projectPath s <> "" -> e_listTree E (projectPath s) = None ->
  let p := projectPath s in
  (e_deleteFolderRecursive E p id = Some tt ->
   let s' := snd (actuallyDeleteFolder E id s) in
   calls s' = calls s ++ [DeleteFolderRecursive p id; ListTree p] /\
   alerts s' = alerts s ++ ["Failed to delete folder. See console for details."] /\
   currentDocId s' = "" /\ currentCharId s' = "" /\
   folders s' = folders s /\ docs s' = docs s /\ characters s' = characters s) /\
  (e_deleteFolderRecursive E p id = None ->
   let s' := snd (actuallyDeleteFolder E id s) in
   calls s' = calls s ++ [DeleteFolderRecursive p id] /\
   alerts s' = alerts s ++ ["Failed to delete folder. See console for details."] /\
   currentDocId s' = currentDocId s /\ currentCharId s' = currentCharId s /\
   folders s' = folders s) /\
  (e_deleteDoc E p id = Some tt ->
   let s' := snd (handleDeleteDoc E id s) in
   calls s' = calls s ++ [DeleteDoc p id; ListTree p] /\
   alerts s' = alerts s ++ ["Failed to delete document. See console for details."] /\
   currentDocId s' = (if String.eqb (currentDocId s) id then "" else currentDocId s) /\
   docs s' = docs s) /\
  (e_deleteCharacter E p id = Some tt ->
   let s' := snd (handleDeleteCharacter E id s) in
   calls s' = calls s ++ [DeleteCharacter p id; ListTree p] /\
   alerts s' = alerts s ++ ["Failed to delete character. See console for details."] /\
   currentCharId s' = (if String.eqb (currentCharId s) id then "" else currentCharId s) /\
   characters s' = characters s) /\
  (forall E' s0 id0,
   fst (actuallyDeleteFolder E' id0 s0) = Done tt /\ fst (handleDeleteDoc E' id0 s0) = Done tt /\
   fst (handleDeleteCharacter E' id0 s0) = Done tt).
Proof.
  intros Hp HL p. subst p. apply String.eqb_neq in Hp.
  split; [|split; [|split; [|split]]].
  - intros Hd. unfold actuallyDeleteFolder, refresh, invoke, alert, modify, mbind, get, ret, tryCatch.
    simpl. rewrite Hp, Hd. simpl. rewrite Hp, HL. simpl. rewrite <- !app_assoc.
    repeat split.
  - intros Hd. unfold actuallyDeleteFolder, refresh, invoke, alert, modify, mbind, get, ret, tryCatch.
    simpl. rewrite Hp, Hd. simpl. repeat split.
  - intros Hd. unfold handleDeleteDoc, refresh, invoke, alert, modify, mbind, get, ret, tryCatch.
    simpl. rewrite Hp, Hd. simpl.
    destruct (String.eqb (currentDocId s) id); simpl; rewrite Hp, HL; simpl;
      rewrite <- !app_assoc; repeat split.
  - intros Hd. unfold handleDeleteCharacter, refresh, invoke, alert, modify, mbind, get, ret, tryCatch.
    simpl. rewrite Hp, Hd. simpl.
    destruct (String.eqb (currentCharId s) id); simpl; rewrite Hp, HL; simpl;
      rewrite <- !app_assoc; repeat split.
  - intros E' s0 id0.
    unfold actuallyDeleteFolder, handleDeleteDoc, handleDeleteCharacter, alert, modify,
      mbind, get, tryCatch.
    destruct (String.eqb (projectPath s0) ""); [repeat split|].
    repeat split;
      match goal with
      | |- fst (match ?m with _ => _ end) = _ =>
          destruct m as [[[]|] ?]; reflexivity
      end.
Qed.

Lemma delete_then_failed_listing_witness :
  let E := mkEngine (fun _ _ _ => Some tt) (fun _ _ _ => Some "d9") (fun _ _ _ => Some "c9")
             (fun _ => None) (fun _ _ => Some tt) (fun _ _ => Some tt) (fun _ _ => Some tt) in
  let s := mkUi "/p" "d1" "" [] [mkDoc "d1" "D" None] [] [] false false None [] [] in
  docs (snd (handleDeleteDoc E "d1" s)) = [mkDoc "d1" "D" None].
Proof.
  intros E s.
  destruct (proj1 (proj2 (proj2 (delete_then_failed_listing E s "d1" ltac:(discriminate) eq_refl)))
              eq_refl) as (_ & _ & _ & H).
  exact H.
Defined.

Lemma actuallyDeleteFolder_dialog E id s :
  confirmOpen (snd (actuallyDeleteFolder E id s)) = confirmOpen s.
Proof.
  unfold actuallyDeleteFolder, refresh, invoke, alert, modify, mbind, get, ret, tryCatch. simpl.
  destruct (String.eqb (projectPath s) ""); [reflexivity|].
  destruct (e_deleteFolderRecursive E (projectPath s) id); simpl; [|reflexivity].
  destruct (String.eqb (projectPath s) ""); [reflexivity|].
  destruct (e_listTree E (projectPath s)); reflexivity.
Qed.

(** ** X12 *)
(** Confirming the folder-delete dialog closes it and clears the pending
    folder in every case. With no project open it only shows the "open a
    project" alert; with an empty pending folder id it makes no call and
    shows nothing. In neither case does it touch the selection or the
    collections. *)
Theorem confirm_without_project_or_id E s :
  confirmOpen s = true ->
  let s' := snd (confirmDialogClose E true s) in
  confirmOpen s' = false /\ pendingFolderId s' = None /\
  (projectPath s = "" -> truthy (pendingFolderId s) = true ->
   calls s' = calls s /\ alerts s' = alerts s ++ [NO_PROJECT] /\
   currentDocId s' = currentDocId s /\ currentCharId s' = currentCharId s /\
   folders s' = folders s) /\
  (pendingFolderId s = Some "" ->
   calls s' = calls s /\ alerts s' = alerts s /\
   currentDocId s' = currentDocId s /\ currentCharId s' = currentCharId s /\
   folders s' = folders s).
Proof.
  intros Ho. destruct s as [pp cd cc fo dc ch ex mv co pf ca al]; simpl in Ho; subst co.
  unfold confirmDialogClose, voidM, modify, mbind, get, ret.
  simpl. destruct pf as [f|]; simpl.
  - destruct (String.eqb f "") eqn:Ef; simpl.
    + apply String.eqb_eq in Ef. subst f.
      repeat split; intros; discriminate.
    + destruct (String.eqb pp "") eqn:Ep.
      * unfold actuallyDeleteFolder, alert, modify, mbind, get. simpl. rewrite Ep. simpl.
        split; [reflexivity|]. split; [reflexivity|]. split.
        -- intros _ _. repeat split.
        -- intros [= ->]. discriminate.
      * split; [|split; [reflexivity|split]].
        -- simpl. rewrite actuallyDeleteFolder_dialog. reflexivity.
        -- intros ->. discriminate.
        -- intros [= ->]. discriminate.
  - repeat split; intros; discriminate.
Qed.

Lemma confirm_without_project_or_id_witness :
  let E := mkEngine (fun _ _ _ => Some tt) (fun _ _ _ => Some "d") (fun _ _ _ => Some "c")
             (fun _ => Some (mkListing [] [] None)) (fun _ _ => Some tt)
             (fun _ _ => Some tt) (fun _ _ => Some tt) in
  let s := mkUi "" "d1" "" [] [] [] [] false true (Some "f1") [] [] in
  alerts (snd (confirmDialogClose E true s)) = [NO_PROJECT].
Proof.
  intros E s.
  destruct (proj1 (proj2 (proj2 (confirm_without_project_or_id E s eq_refl))) eq_refl eq_refl)
    as (_ & H & _).
  exact H.
Defined.

End UiExtras.

(** ** Search panel *)
Module SearchFacts.
Import SearchPanel.

(** ** X13 *)
(** An empty query clears the results and makes no call; a non-empty query
    makes one [doSearch] call and leaves the results as they were until the
    answer arrives. Nothing ties an answer to the query it was made for:
    when the query changes before an answer arrives, that answer still
    replaces the results, even after the box has been cleared. *)
Theorem search_stale_answer_wins path q1 q2 rows s :
  q1 <> "" ->
  let s1 := searchBegin path q1 s in
  let s2 := searchBegin path q2 s1 in
  let s3 := searchEnd (Some rows) s2 in
  results s1 = results s /\ searchCalls s1 = searchCalls s ++ [(path, q1)] /\
  (q2 = "" -> results s2 = [] /\ searchCalls s2 = searchCalls s1) /\
  q s3 = q2 /\ results s3 = map (fun '(id, sn) => mkHit id sn) rows /\
  searchCalls s3 = searchCalls s2.
Proof.
  intros Hq s1 s2 s3. subst s1 s2 s3. apply String.eqb_neq in Hq.
  unfold searchBegin. rewrite Hq. cbn [results searchCalls q].
  split; [reflexivity|]. split; [reflexivity|]. split.
  - intros ->. cbn. split; reflexivity.
  - destruct (String.eqb q2 ""); cbn; repeat split.
Qed.

Lemma search_stale_answer_wins_witness :
  results (searchEnd (Some [("d1", "<b>x</b>")])
            (searchBegin "/p" "" (searchBegin "/p" "x" (mkSearch "" [] []))))
  = [mkHit "d1" "<b>x</b>"].
Proof.
  exact (proj1 (proj2 (proj2 (proj2 (proj2
           (search_stale_answer_wins "/p" "x" "" [("d1", "<b>x</b>")] (mkSearch "" [] [])
              ltac:(discriminate))))))).
Defined.

End SearchFacts.

(** ** Autosave: invariants and period *)
Module AutosaveExtras.
Import Autosave.
Import AutosaveFacts (tick_spec, tick_last, fire_fields, fire_last).

Section Inv.
Context {B : Type} (beqB : B -> B -> bool) (latency : nat -> option nat).

(** The timer phase is below the period, the last save is not in the
    future, and every save names a non-empty id. *)
Definition SaverInv (s : Saver B) : Prop :=
  sinceArm s < AUTOSAVE_MS /\ lastSaved s <= clock s /\
  Forall (fun e => fst e <> "") (saves s).

(** What a step keeps: the invariant, earlier saves and the clock's order. *)
Definition Grows (s s' : Saver B) : Prop :=
  SaverInv s' /\ (exists new, saves s' = saves s ++ new) /\ clock s <= clock s'.

Lemma Grows_trans s1 s2 s3 : Grows s1 s2 -> Grows s2 s3 -> Grows s1 s3.
Proof.
  intros (_ & (n1 & H1) & C1) (I3 & (n2 & H2) & C2). split; [exact I3|]. split; [|lia].
  exists (n1 ++ n2). rewrite H2, H1, app_assoc. reflexivity.
Qed.

Lemma Grows_refl s : SaverInv s -> Grows s s.
Proof. intros H. split; [exact H|]. split; [exists []; symmetry; apply app_nil_r|lia]. Qed.

(** The save a fire may append names the active id, which is non-empty. *)
Lemma fired_ids (s : Saver B) :
  Forall (fun e => fst e <> "") (saves s) ->
  Forall (fun e => fst e <> "")
    (saves s ++ (if String.eqb (activeId s) "" then [] else [(activeId s, buffer s)])).
Proof.
  intros Hf. apply Forall_app. split; [exact Hf|].
  destruct (String.eqb_spec (activeId s) ""); [constructor|].
  constructor; [exact n|constructor].
Qed.

Lemma fire_grows s : SaverInv s -> Grows s (fire latency s).
Proof.
  intros (Hs & Hl & Hf).
  destruct (fire_fields latency s) as (_ & _ & C & K & Sv).
  unfold Grows, SaverInv. rewrite C, K, Sv.
  split; [split; [exact Hs|split; [|now apply fired_ids]]|].
  - destruct (fire_last latency s) as [L|L]; rewrite L; lia.
  - split; [eexists; reflexivity|lia].
Qed.

Ltac grows_plain Hf :=
  unfold Grows, SaverInv; cbn;
  split; [split; [lia|split; [lia|exact Hf]]|];
  split; [exists []; symmetry; apply app_nil_r|lia].

Lemma tick_grows s : SaverInv s -> Grows s (tick latency s).
Proof.
  intros (Hs & Hl & Hf).
  destruct (tick_spec latency s) as (_ & _ & C & H1 & H2).
  assert (HL : lastSaved (tick latency s) <= clock (tick latency s)).
  { rewrite C. destruct (tick_last latency s) as [L|L]; rewrite L; lia. }
  unfold Grows, SaverInv. rewrite C.
  destruct (Nat.eq_dec (S (sinceArm s)) AUTOSAVE_MS) as [E|E].
  - destruct (H1 E) as [K Sv]. rewrite K, Sv.
    split; [split; [unfold AUTOSAVE_MS; lia|split; [lia|now apply fired_ids]]|].
    split; [eexists; reflexivity|lia].
  - destruct (H2 E) as [K Sv]. rewrite K, Sv.
    split; [split; [lia|split; [lia|exact Hf]]|].
    split; [exists []; symmetry; apply app_nil_r|lia].
Qed.

Lemma wait_grows n s : SaverInv s -> Grows s (wait latency n s).
Proof.
  revert s; induction n as [|n IH]; intros s H; simpl; [now apply Grows_refl|].
  pose proof (tick_grows s H) as G. eapply Grows_trans; [exact G|]. apply IH, G.
Qed.

Lemma step_grows e s : SaverInv s -> Grows s (step beqB latency e s).
Proof.
  intros H. destruct e as [n|v| |id]; simpl.
  - now apply wait_grows.
  - unfold edit. destruct (beqB v (buffer s)); [now apply Grows_refl|].
    destruct H as (Hs & Hl & Hf). grows_plain Hf.
  - now apply fire_grows.
  - unfold select. destruct (String.eqb id (activeId s)); [now apply Grows_refl|].
    destruct H as (Hs & Hl & Hf). grows_plain Hf.
Qed.

(** ** X14 *)
(** Along any sequence of waits, edits, blurs and selection changes the
    timer phase stays below the period, the last-saved time never passes
    the clock, and no save is made for an empty id. Saves are only ever
    appended and the clock never goes back. *)
Theorem run_keeps_saver_invariant es s :
  SaverInv s ->
  SaverInv (run beqB latency es s) /\ (exists new, saves (run beqB latency es s) = saves s ++ new) /\
  clock s <= clock (run beqB latency es s).
Proof.
  revert s; induction es as [|e r IH]; intros s H; simpl.
  - exact (Grows_refl s H).
  - pose proof (step_grows e s H) as G. exact (Grows_trans _ _ _ G (IH _ (proj1 G))).
Qed.

End Inv.

Lemma run_keeps_saver_invariant_witness :
  SaverInv (run String.eqb (fun k => if Nat.eqb k 0 then Some 30 else None)
              [Select "d1"; Edit "x"; Blur; Wait 40; Select ""; Blur] (mkSaver "" "" 0 0 0 [] [])).
Proof.
  assert (H : SaverInv (B := string) (mkSaver "" "" 0 0 0 [] [])).
  { unfold SaverInv, AUTOSAVE_MS; cbn. split; [lia|split; [lia|constructor]]. }
  exact (proj1 (run_keeps_saver_invariant String.eqb (fun k => if Nat.eqb k 0 then Some 30 else None)
                  [Select "d1"; Edit "x"; Blur; Wait 40; Select ""; Blur] _ H)).
Defined.

Section Period.
Context {B : Type} (latency : nat -> option nat).

Lemma AUTOSAVE_MS_pos : AUTOSAVE_MS <> 0.
Proof. unfold AUTOSAVE_MS. discriminate. Qed.

(** ** X15 *)
(** While the id is non-empty and no edit or selection change intervenes,
    waiting [n] ms saves the current buffer once per full period elapsed
    since the timer was armed: [(sinceArm + n) / AUTOSAVE_MS] saves, all of
    the same id and buffer, after which the phase is
    [(sinceArm + n) mod AUTOSAVE_MS]. *)
Theorem wait_saves_once_per_period n (s : Saver B) :
  activeId s <> "" -> sinceArm s < AUTOSAVE_MS ->
  saves (wait latency n s) =
    saves s ++ repeat (activeId s, buffer s) ((sinceArm s + n) / AUTOSAVE_MS) /\
  sinceArm (wait latency n s) = (sinceArm s + n) mod AUTOSAVE_MS /\
  clock (wait latency n s) = clock s + n /\
  activeId (wait latency n s) = activeId s /\ buffer (wait latency n s) = buffer s.
Proof.
  revert s; induction n as [|n IH]; intros s Ha Hs.
  - cbn [wait]. rewrite Nat.add_0_r, Nat.div_small, Nat.mod_small by exact Hs.
    cbn [repeat]. rewrite app_nil_r, Nat.add_0_r. auto.
  - cbn [wait]. destruct (tick_spec latency s) as (A & Bu & C & H1 & H2).
    destruct (Nat.eq_dec (S (sinceArm s)) AUTOSAVE_MS) as [E|E].
    + destruct (H1 E) as [K Sv].
      destruct (IH (tick latency s)) as (I1 & I2 & I3 & I4 & I5);
        [rewrite A; exact Ha|rewrite K; unfold AUTOSAVE_MS; lia|].
      rewrite I1, I2, I3, I4, I5, Sv, K, A, Bu, C.
      apply String.eqb_neq in Ha. rewrite Ha.
      assert (Hd : sinceArm s + S n = 1 * AUTOSAVE_MS + n) by lia.
      rewrite Hd, Nat.div_add_l by exact AUTOSAVE_MS_pos.
      rewrite Nat.add_comm with (n := 1 * AUTOSAVE_MS), Nat.Div0.mod_add.
      rewrite <- app_assoc. simpl. repeat split; lia.
    + destruct (H2 E) as [K Sv].
      destruct (IH (tick latency s)) as (I1 & I2 & I3 & I4 & I5);
        [rewrite A; exact Ha|rewrite K; lia|].
      rewrite I1, I2, I3, I4, I5, Sv, K, A, Bu, C, <- Nat.add_succ_comm. repeat split; lia.
Qed.

End Period.

Lemma wait_saves_once_per_period_witness :
  saves (wait (fun _ => None) (2 * AUTOSAVE_MS + 100) (mkSaver "d1" "text" 0 0 0 [] []))
  = [("d1", "text"); ("d1", "text")].
Proof.
  assert (H0 : sinceArm (mkSaver (B := string) "d1" "text" 0 0 0 [] []) < AUTOSAVE_MS)
    by (cbn [sinceArm]; unfold AUTOSAVE_MS; lia).
  rewrite (proj1 (wait_saves_once_per_period (fun _ => None) (2 * AUTOSAVE_MS + 100)
                    (mkSaver "d1" "text" 0 0 0 [] []) ltac:(discriminate) H0)).
  cbn [saves activeId buffer sinceArm].
  rewrite Nat.add_0_l, Nat.div_add_l by exact AUTOSAVE_MS_pos.
  rewrite (Nat.div_small 100) by (unfold AUTOSAVE_MS; lia). reflexivity.
Defined.

End AutosaveExtras.

(** ** Image paths of the character editor *)
Module ImageFacts.
Import ImagePath.

Definition slashFix (c : ascii) : ascii := if Ascii.eqb c BSLASH then SLASH else c.

Lemma slashFix_slash c :
  Ascii.eqb (slashFix c) SLASH = Ascii.eqb c SLASH || Ascii.eqb c BSLASH.
Proof.
  unfold slashFix. destruct (Ascii.eqb_spec c BSLASH) as [->|Hc]; [reflexivity|].
  now rewrite orb_false_r.
Qed.

Lemma slashFix_bslash c : Ascii.eqb (slashFix c) BSLASH = false.
Proof.
  unfold slashFix. destruct (Ascii.eqb_spec c BSLASH) as [->|Hc]; [reflexivity|].
  now apply Ascii.eqb_neq.
Qed.

Lemma slashFix_letter c : isLetter (slashFix c) = isLetter c.
Proof. unfold slashFix. destruct (Ascii.eqb_spec c BSLASH) as [->|Hc]; reflexivity. Qed.

Lemma slashFix_colon c : Ascii.eqb (slashFix c) ":" = Ascii.eqb c ":".
Proof. unfold slashFix. destruct (Ascii.eqb_spec c BSLASH) as [->|Hc]; reflexivity. Qed.

Lemma normSlashes_list p :
  list_ascii_of_string (normSlashes p) = map slashFix (list_ascii_of_string p).
Proof. unfold normSlashes. apply list_ascii_of_string_of_list_ascii. Qed.

(** ** X16 *)
(** [normSlashes] leaves no backslash and is idempotent. On its result
    [looksAbsolutePath] holds exactly when the original path starts with a
    slash or a backslash, or with a drive letter, a colon and a slash or a
    backslash. A path with a single leading backslash counts as absolute,
    and the test for a UNC prefix of two backslashes can no longer
    succeed. *)
Theorem normSlashes_absolute p :
  let l := list_ascii_of_string p in
  ~ In BSLASH (list_ascii_of_string (normSlashes p)) /\
  normSlashes (normSlashes p) = normSlashes p /\
  looksAbsolutePath (normSlashes p) =
    (match l with
     | d :: c :: sl :: _ =>
         isLetter d && Ascii.eqb c ":"%char && (Ascii.eqb sl SLASH || Ascii.eqb sl BSLASH)
     | _ => false
     end ||
     match l with
     | c :: _ => Ascii.eqb c SLASH || Ascii.eqb c BSLASH
     | [] => false
     end).
Proof.
  intros l. subst l. split; [|split].
  - rewrite normSlashes_list. intros Hin. apply in_map_iff in Hin as (c & Hc & _).
    pose proof (slashFix_bslash c) as Hb. rewrite Hc, Ascii.eqb_refl in Hb. discriminate.
  - unfold normSlashes at 1. rewrite normSlashes_list. unfold normSlashesL.
    fold slashFix. rewrite map_map. unfold normSlashes, normSlashesL. fold slashFix.
    f_equal. apply map_ext. intros c.
    unfold slashFix at 1. rewrite slashFix_bslash. reflexivity.
  - unfold looksAbsolutePath. cbv zeta. rewrite normSlashes_list.
    destruct (list_ascii_of_string p) as [|a [|b [|c r]]]; cbn [map];
      rewrite ?slashFix_slash, ?slashFix_bslash, ?slashFix_letter, ?slashFix_colon;
      rewrite ?andb_false_r, ?orb_false_r, ?orb_false_l; reflexivity.
Qed.

(** ** X17 *)
(** [buildDisplayUrl] gives the empty string, the input itself, or a
    converted path with the cache-busting suffix, and calls [join] at most
    once, always with the project path. An http(s) URL, in any letter case,
    is returned unchanged. A path that is absolute after normalisation is
    converted without [join], so the result does not depend on the project
    path. A relative path is joined to the project path, and a rejected
    [join] gives the empty string. *)
Theorem buildDisplayUrl_cases join convertFileSrc nowText pp raw :
  let r := buildDisplayUrl join convertFileSrc nowText pp raw in
  (fst r = "" \/ fst r = raw \/ exists q, fst r = (convertFileSrc q ++ "?v=" ++ nowText)%string) /\
  (snd r = [] \/ snd r = [(pp, normSlashes raw)]) /\
  (isHttpUrl raw = true -> r = (raw, [])) /\
  (isHttpUrl raw = false -> looksAbsolutePath (normSlashes raw) = true ->
   forall pp', r = buildDisplayUrl join convertFileSrc nowText pp' raw /\
   (raw = "" \/ r = ((convertFileSrc (normSlashes raw) ++ "?v=" ++ nowText)%string, []))) /\
  (raw <> "" -> isHttpUrl raw = false -> looksAbsolutePath (normSlashes raw) = false ->
   snd r = [(pp, normSlashes raw)] /\
   (join pp (normSlashes raw) = None -> fst r = "")).
Proof.
  intros r. subst r. unfold buildDisplayUrl.
  destruct (String.eqb raw "") eqn:Er.
  - apply String.eqb_eq in Er. subst raw. cbn.
    split; [auto|]. split; [auto|]. split; [discriminate|]. split.
    + intros _ _ pp'. auto.
    + intros H. contradiction.
  - apply String.eqb_neq in Er.
    destruct (isHttpUrl raw) eqn:Eh.
    + split; [auto|]. split; [auto|]. split; [reflexivity|]. split; intros; discriminate.
    + destruct (looksAbsolutePath (normSlashes raw)) eqn:Ea.
      * split; [right; right; eexists; reflexivity|]. split; [auto|]. split; [discriminate|].
        split; [intros _ _ pp'; auto|intros _ _ H; discriminate].
      * destruct (join pp (normSlashes raw)) as [q|] eqn:Ej.
        -- split; [right; right; eexists; reflexivity|]. split; [auto|]. split; [discriminate|].
           split; [intros _ H; discriminate|]. intros _ _ _. split; [reflexivity|discriminate].
        -- split; [auto|]. split; [auto|]. split; [discriminate|].
           split; [intros _ H; discriminate|]. intros _ _ _. split; reflexivity.
Qed.

Lemma buildDisplayUrl_cases_witness :
  let join := fun a b => Some (a ++ "/" ++ b)%string in
  let conv := fun p => ("asset://" ++ p)%string in
  buildDisplayUrl join conv "1" "/proj" "C:\img.png"
  = buildDisplayUrl join conv "1" "/other" "C:\img.png".
Proof.
  intros join conv.
  exact (proj1 (proj1 (proj2 (proj2 (proj2 (buildDisplayUrl_cases join conv "1" "/proj" "C:\img.png"))))
                  eq_refl eq_refl "/other")).
Defined.

End ImageFacts.
